(** * memecache: a fixed-size cache with pluggable eviction policies

    Shallow embedding of [cache_policy.hpp], [fifo_policy.hpp],
    [lifo_policy.hpp], [lru_policy.hpp] and [cache.hpp].

    - [std::unordered_map<Key, Value>] is a [gmap K V], [std::unordered_set<Key>]
      a [gset K], [std::list<Key>] a [list K] whose head is [front()].
    - [std::size_t] values are only compared, never computed with, so they
      are natural numbers.
    - C++ exceptions are values of [exception]; an operation that can throw
      returns [exception + A] together with the state it leaves behind.
    - The [on_erase] callback is a black box of the caller; the embedding
      records every invocation, in order, with its two arguments. *)

From stdpp Require Import gmap list fin_maps fin_sets.

Set Default Proof Using "Type*".

(** The three exception classes thrown in the sources:
    [std::invalid_argument] (constructor, capacity 0),
    [std::range_error] ([Get] of an absent key) and
    [std::runtime_error] ([ReplacementCandidate] of an empty policy). *)
Inductive exception : Set :=
  | invalid_argument
  | range_error
  | runtime_error.

(** * cache_policy.hpp: the policy interface *)

(** [ICachePolicy<Key>]: four virtual member functions.  [new_policy] is the
    default constructor [Policy<Key>{}] that every implementation provides. *)
Class ICachePolicy (K P : Type) := {
  new_policy : P;
  Insert : K → P → P;
  Touch : K → P → P;
  Erase : K → P → P;
  ReplacementCandidate : P → exception + K
}.

(** What a policy object knows, read off its private members: the keys it
    tracks, and the representation invariant tying its members together. *)
Class Tracking (K P : Type) `{Countable K} := {
  tracked : P → gset K;
  policy_ok : P → Prop
}.

(** [std::list::erase(it)] for the iterator stored under [key]: the node
    that [it] designates is the one created by [emplace_front(key)], so the
    node is addressed by the key it holds.  Exactly one node is unlinked. *)
Fixpoint list_erase `{EqDecision K} (key : K) (l : list K) : list K :=
  match l with
  | [] => []
  | x :: l' => if decide (x = key) then l' else x :: list_erase key l'
  end.

(** [l.splice(l.begin(), l, it)]: unlink the node and relink it in front. *)
Definition list_splice_front `{EqDecision K} (key : K) (l : list K) : list K :=
  key :: list_erase key l.

Module NoCachePolicy.
Section defs.
Context `{Countable K}.

Record t := mk { key_storage : gset K }.

Definition Insert (key : K) (p : t) : t :=
  mk ({[key]} ∪ key_storage p).

Definition Touch (key : K) (p : t) : t := p.

Definition Erase (key : K) (p : t) : t :=
  mk (key_storage p ∖ {[key]}).

(** [*key_storage.begin()]: the first element in the container's own
    iteration order.  The embedding keeps the set of keys only; the order
    in which [std::unordered_set] iterates depends on how the set came
    about and is not modelled, so this is some member of the set and what
    is proved of it is what holds of every member. *)
Definition ReplacementCandidate (p : t) : exception + K :=
  match elements (key_storage p) with
  | [] => inl runtime_error
  | key :: _ => inr key
  end.

#[global] Instance policy : ICachePolicy K t :=
  Build_ICachePolicy K t (mk ∅) Insert Touch Erase ReplacementCandidate.

#[global] Instance tracking : Tracking K t :=
  {| tracked := key_storage; policy_ok := λ _, True |}.
End defs.
Arguments t K {_ _}.
End NoCachePolicy.

(** * fifo_policy.hpp *)

(** In the three list-backed policies the index ([key_lookup], [key_finder])
    maps a key to the iterator of its list node.  The embedding keeps the
    index's key set; the iterator is the node holding that key. *)
Module FIFOCachePolicy.
Section defs.
Context `{Countable K}.

Record t := mk { fifo_queue : list K; key_lookup : gset K }.

Definition Insert (key : K) (p : t) : t :=
  if decide (key ∈ key_lookup p) then p
  else mk (key :: fifo_queue p) ({[key]} ∪ key_lookup p).

Definition Touch (key : K) (p : t) : t := p.

Definition Erase (key : K) (p : t) : t :=
  if decide (key ∈ key_lookup p)
  then mk (list_erase key (fifo_queue p)) (key_lookup p ∖ {[key]})
  else p.

Definition ReplacementCandidate (p : t) : exception + K :=
  match last (fifo_queue p) with
  | None => inl runtime_error
  | Some key => inr key
  end.

#[global] Instance policy : ICachePolicy K t :=
  Build_ICachePolicy K t (mk [] ∅) Insert Touch Erase ReplacementCandidate.

(** The index and the list hold the same keys, each in one node. *)
#[global] Instance tracking : Tracking K t :=
  {| tracked := key_lookup;
     policy_ok := λ p,
       NoDup (fifo_queue p) ∧ key_lookup p = list_to_set (fifo_queue p) |}.
End defs.
Arguments t K {_ _}.
End FIFOCachePolicy.

(** * lifo_policy.hpp *)

Module LIFOCachePolicy.
Section defs.
Context `{Countable K}.

Record t := mk { lifo_stack : list K; key_lookup : gset K }.

Definition Insert (key : K) (p : t) : t :=
  if decide (key ∈ key_lookup p) then p
  else mk (key :: lifo_stack p) ({[key]} ∪ key_lookup p).

Definition Touch (key : K) (p : t) : t := p.

Definition Erase (key : K) (p : t) : t :=
  if decide (key ∈ key_lookup p)
  then mk (list_erase key (lifo_stack p)) (key_lookup p ∖ {[key]})
  else p.

Definition ReplacementCandidate (p : t) : exception + K :=
  match lifo_stack p with
  | [] => inl runtime_error
  | key :: _ => inr key
  end.

#[global] Instance policy : ICachePolicy K t :=
  Build_ICachePolicy K t (mk [] ∅) Insert Touch Erase ReplacementCandidate.

(** The index and the list hold the same keys, each in one node. *)
#[global] Instance tracking : Tracking K t :=
  {| tracked := key_lookup;
     policy_ok := λ p,
       NoDup (lifo_stack p) ∧ key_lookup p = list_to_set (lifo_stack p) |}.
End defs.
Arguments t K {_ _}.
End LIFOCachePolicy.

(** * lru_policy.hpp *)

Module LRUCachePolicy.
Section defs.
Context `{Countable K}.

Record t := mk { lru_queue : list K; key_finder : gset K }.

Definition Insert (key : K) (p : t) : t :=
  if decide (key ∈ key_finder p) then p
  else mk (key :: lru_queue p) ({[key]} ∪ key_finder p).

Definition Touch (key : K) (p : t) : t :=
  if decide (key ∈ key_finder p)
  then mk (list_splice_front key (lru_queue p)) (key_finder p)
  else p.

Definition Erase (key : K) (p : t) : t :=
  if decide (key ∈ key_finder p)
  then mk (list_erase key (lru_queue p)) (key_finder p ∖ {[key]})
  else p.

Definition ReplacementCandidate (p : t) : exception + K :=
  match last (lru_queue p) with
  | None => inl runtime_error
  | Some key => inr key
  end.

#[global] Instance policy : ICachePolicy K t :=
  Build_ICachePolicy K t (mk [] ∅) Insert Touch Erase ReplacementCandidate.

(** The index and the list hold the same keys, each in one node. *)
#[global] Instance tracking : Tracking K t :=
  {| tracked := key_finder;
     policy_ok := λ p,
       NoDup (lru_queue p) ∧ key_finder p = list_to_set (lru_queue p) |}.
End defs.
Arguments t K {_ _}.
End LRUCachePolicy.

(** * cache.hpp: [fixed_sized_cache] *)

Section cache.
Context `{Countable K} {V P : Type} `{!ICachePolicy K P}.

(** The data members.  [on_erase_callback] is not a field: its calls are
    the third component of every operation's outcome. *)
Record fixed_sized_cache := mk_cache {
  cache_items_map : gmap K V;
  cache_policy : P;
  max_cache_size : nat
}.

(** A member function: from the object's state to the value returned or
    the exception thrown, the state left behind, and the calls made to
    [on_erase_callback], oldest first. *)
Definition M (A : Type) : Type :=
  fixed_sized_cache → (exception + A) * fixed_sized_cache * list (K * V).

(** [ret], [bind]: sequencing of statements; a thrown exception skips
    the rest, the state and the callback calls made so far remain. *)
Definition ret {A} (a : A) : M A := λ c, (inr a, c, []).

Definition throw {A} (e : exception) : M A := λ c, (inl e, c, []).

Definition bind {A B} (m : M A) (f : A → M B) : M B := λ c,
  match m c with
  | (inl e, c1, calls1) => (inl e, c1, calls1)
  | (inr a, c1, calls1) =>
      match f a c1 with
      | (r, c2, calls2) => (r, c2, calls1 ++ calls2)
      end
  end.

Definition get_map : M (gmap K V) := λ c, (inr (cache_items_map c), c, []).
Definition get_policy : M P := λ c, (inr (cache_policy c), c, []).
Definition get_max_size : M nat := λ c, (inr (max_cache_size c), c, []).

Definition set_map (m : gmap K V) : M unit := λ c,
  (inr tt, mk_cache m (cache_policy c) (max_cache_size c), []).

Definition set_policy (p : P) : M unit := λ c,
  (inr tt, mk_cache (cache_items_map c) p (max_cache_size c), []).

Definition on_erase_callback (key : K) (value : V) : M unit := λ c,
  (inr tt, c, [(key, value)]).

(** An exception of the policy propagates out of the member function. *)
Definition lift {A} (r : exception + A) : M A := λ c, (r, c, []).
End cache.

Arguments fixed_sized_cache K {_ _} V P.
Arguments M K {_ _} V P A.

#[global] Instance M_ret `{Countable K} {V P} : MRet (M K V P) := @ret K _ _ V P.
#[global] Instance M_bind `{Countable K} {V P} : MBind (M K V P) :=
  λ A B f m, bind m f.

Section cache_ops.
Context `{Countable K} {V P : Type} `{!ICachePolicy K P}.
Local Abbreviation cache := (fixed_sized_cache K V P).
Local Abbreviation M := (M K V P).

(** The constructor.  [policy] is copied into the new object as it is;
    the map starts empty.  The copy of a list-backed policy that tracks keys
    has an index whose iterators still designate the nodes of the argument;
    the embedding takes them to designate the copy's own nodes.  It is exact
    for a policy that tracks no keys, and for another one as long as [Touch]
    and [Erase] are not called for the keys it tracked; what is proved of the
    states of a cache is proved of [fresh_reachable] ones. *)
Definition fixed_sized_cache_ctor (max_size : nat) (policy : P)
  : exception + cache :=
  if decide (max_size = 0) then inl invalid_argument
  else inr (mk_cache ∅ policy max_size).

(** [std::unordered_map::emplace]: a key that has an entry keeps it. *)
Definition map_emplace (key : K) (value : V) (m : gmap K V) : gmap K V :=
  match m !! key with
  | Some _ => m
  | None => <[key := value]> m
  end.

(** Private members.  [Insert_entry] is [Insert(key, value)]; the name
    [Insert] is the policy's. *)
Definition Insert_entry (key : K) (value : V) : M unit :=
  p ← get_policy;
  set_policy (Insert key p);;
  m ← get_map;
  set_map (map_emplace key value m).

Definition Update (key : K) (value : V) : M unit :=
  p ← get_policy;
  set_policy (Touch key p);;
  m ← get_map;
  set_map (<[key := value]> m).

(** [Erase(const_iterator it)], with [*it = (key, value)]. *)
Definition Erase_it (it : K * V) : M unit :=
  p ← get_policy;
  set_policy (Erase it.1 p);;
  on_erase_callback it.1 it.2;;
  m ← get_map;
  set_map (delete it.1 m).

(** [Erase(const Key& key)]. *)
Definition Erase_key (key : K) : M unit :=
  m ← get_map;
  match m !! key with
  | Some value => Erase_it (key, value)
  | None => mret tt
  end.

(** Public members.  [Put] is [noexcept]: the exception it returns here
    would end the program. *)
Definition Put (key : K) (value : V) : M unit :=
  m ← get_map;
  match m !! key with
  | None =>
      max_size ← get_max_size;
      (if decide (max_size ≤ size m) then
         p ← get_policy;
         evict_key ← lift (ReplacementCandidate p);
         Erase_key evict_key
       else mret tt);;
      Insert_entry key value
  | Some _ => Update key value
  end.

(** The returned iterator is [Some] of the entry it points at, [None]
    for [end()]. *)
Definition TryGet (key : K) : M (option (K * V) * bool) :=
  m ← get_map;
  match m !! key with
  | Some value =>
      p ← get_policy;
      set_policy (Touch key p);;
      mret (Some (key, value), true)
  | None => mret (None, false)
  end.

Definition Get (key : K) : M V :=
  result ← TryGet key;
  if negb result.2 then throw range_error
  else match result.1 with
       | Some it => mret it.2
       | None => throw range_error (* [found] came with a valid iterator *)
       end.

Definition Cached (key : K) : M bool :=
  m ← get_map;
  mret (bool_decide (is_Some (m !! key))).

Definition Size : M nat :=
  m ← get_map;
  mret (size m).

Definition Remove (key : K) : M bool :=
  m ← get_map;
  match m !! key with
  | None => mret false
  | Some value => Erase_it (key, value);; mret true
  end.

(** The range-for visits the entries in the map's iteration order. *)
Definition Clear : M unit :=
  m ← get_map;
  p ← get_policy;
  set_policy (foldl (λ p' kv, Erase kv.1 p') p (map_to_list m));;
  set_map ∅.
End cache_ops.

Arguments Put : simpl never.
Arguments TryGet : simpl never.
Arguments Get : simpl never.
Arguments Cached : simpl never.
Arguments Size : simpl never.
Arguments Remove : simpl never.
Arguments Clear : simpl never.

(** * Sequences of calls *)

Section runs.
Context `{Countable K} {V P : Type} `{!ICachePolicy K P}.
Local Abbreviation cache := (fixed_sized_cache K V P).

(** One call of a public member function, with its arguments. *)
Inductive op :=
  | OpPut (key : K) (value : V)
  | OpTryGet (key : K)
  | OpGet (key : K)
  | OpCached (key : K)
  | OpSize
  | OpRemove (key : K)
  | OpClear.

(** What the call hands back to the caller. *)
Inductive answer :=
  | AUnit
  | ATryGet (it : option (K * V)) (found : bool)
  | AValue (value : V)
  | ABool (b : bool)
  | ASize (n : nat).

Definition step (o : op) : M K V P answer :=
  match o with
  | OpPut key value => Put key value;; mret AUnit
  | OpTryGet key => r ← TryGet key; mret (ATryGet r.1 r.2)
  | OpGet key => v ← Get key; mret (AValue v)
  | OpCached key => b ← Cached key; mret (ABool b)
  | OpSize => n ← Size; mret (ASize n)
  | OpRemove key => b ← Remove key; mret (ABool b)
  | OpClear => Clear;; mret AUnit
  end.

(** [step] leaves the state and the callback calls of the member function
    as they are; it only wraps the value returned. *)
Definition member_outcome (o : op) (c : cache) : cache * list (K * V) :=
  match o with
  | OpPut key value => ((Put key value c).1.2, (Put key value c).2)
  | OpTryGet key => ((TryGet key c).1.2, (TryGet key c).2)
  | OpGet key => ((Get key c).1.2, (Get key c).2)
  | OpCached key => ((Cached key c).1.2, (Cached key c).2)
  | OpSize => ((Size c).1.2, (Size c).2)
  | OpRemove key => ((Remove key c).1.2, (Remove key c).2)
  | OpClear => ((Clear c).1.2, (Clear c).2)
  end.

(** The caller performs the calls one after the other and goes on after a
    [range_error] of [Get].  ([Put] is [noexcept]: an exception leaving it
    would end the program; [Put_returns] below shows there is none.) *)
Fixpoint run (ops : list op) (c : cache)
  : list (exception + answer) * cache * list (K * V) :=
  match ops with
  | [] => ([], c, [])
  | o :: ops' =>
      match step o c with
      | (r, c1, calls1) =>
          match run ops' c1 with
          | (rs, c2, calls2) => (r :: rs, c2, calls1 ++ calls2)
          end
      end
  end.

Definition state_after (ops : list op) (c : cache) : cache := (run ops c).1.2.
Definition calls_during (ops : list op) (c : cache) : list (K * V) := (run ops c).2.

(** Lookups of the given keys, one after the other. *)
Definition TryGets (keys : list K) : list op := OpTryGet <$> keys.

(** Three insertions, with any lookups before, between and after them. *)
Definition puts_with_lookups (A B C : K) (vA vB vC : V)
    (g0 g1 g2 g3 : list K) : list op :=
  TryGets g0 ++ OpPut A vA :: TryGets g1 ++ OpPut B vB ::
  TryGets g2 ++ OpPut C vC :: TryGets g3.

(** The policy objects a caller can hand to the constructor: a default
    constructed one on which the public members were called. *)
Inductive policy_op :=
  | PInsert (key : K)
  | PTouch (key : K)
  | PErase (key : K).

Definition policy_step (p : P) (o : policy_op) : P :=
  match o with
  | PInsert key => Insert key p
  | PTouch key => Touch key p
  | PErase key => Erase key p
  end.

Definition policy_after (pops : list policy_op) : P :=
  foldl policy_step new_policy pops.
End runs.

Arguments step : simpl never.

Arguments op K V : clear implicits.
Arguments TryGets {K V} keys.
Arguments puts_with_lookups {K V} A B C vA vB vC g0 g1 g2 g3.
Arguments answer K V : clear implicits.
Arguments policy_op K : clear implicits.

(** * The contract every policy of the repository meets *)

Class PolicyLaws (K P : Type) `{Countable K, !ICachePolicy K P, !Tracking K P}
  : Prop := {
  new_policy_ok : policy_ok (new_policy (P := P));
  new_policy_tracked : tracked (new_policy (P := P)) = ∅;
  Insert_ok key p : policy_ok p → policy_ok (Insert key p);
  Touch_ok key p : policy_ok p → policy_ok (Touch key p);
  Erase_ok key p : policy_ok p → policy_ok (Erase key p);
  tracked_Insert key p : tracked (Insert key p) = {[key]} ∪ tracked p;
  tracked_Touch key p : tracked (Touch key p) = tracked p;
  tracked_Erase key p : tracked (Erase key p) = tracked p ∖ {[key]};
  candidate_throws p :
    policy_ok p →
    (∃ e, ReplacementCandidate p = inl e) ↔ tracked p = ∅;
  candidate_exception p e :
    ReplacementCandidate p = inl e → e = runtime_error;
  candidate_tracked p key :
    policy_ok p → ReplacementCandidate p = inr key → key ∈ tracked p
}.

(** A statement made of each of the four policy classes of the repository. *)
Definition every_policy `{Countable K}
    (Φ : ∀ P, ICachePolicy K P → Tracking K P → Prop) : Prop :=
  Φ (NoCachePolicy.t K) _ _ ∧
  Φ (FIFOCachePolicy.t K) _ _ ∧
  Φ (LIFOCachePolicy.t K) _ _ ∧
  Φ (LRUCachePolicy.t K) _ _.

(** * Invariants of a cache object *)

Section invariants.
Context `{Countable K} {V P : Type} `{!ICachePolicy K P, !Tracking K P}.
Implicit Types (c : fixed_sized_cache K V P).

(** Every key of the map is known to the policy. *)
Definition cache_sound c : Prop :=
  policy_ok (cache_policy c) ∧
  0 < max_cache_size c ∧
  dom (cache_items_map c) ⊆ tracked (cache_policy c).

(** The policy knows the keys of the map and no other, and the map holds
    no more entries than the capacity. *)
Definition cache_exact c : Prop :=
  policy_ok (cache_policy c) ∧
  0 < max_cache_size c ∧
  tracked (cache_policy c) = dom (cache_items_map c) ∧
  size (cache_items_map c) ≤ max_cache_size c.

(** The entries of [c] whose key has no entry in [c']. *)
Definition removed_entries c c' : gmap K V :=
  filter (λ kv, cache_items_map c' !! kv.1 = None) (cache_items_map c).
End invariants.

Section paths.
Context `{Countable K} {V P : Type} `{!ICachePolicy K P}.
Implicit Types (c : fixed_sized_cache K V P) (key : K) (value : V).

(** The five paths through [Put]. *)
Inductive Put_path c key value : Prop :=
  | path_update old :
      cache_items_map c !! key = Some old →
      Put key value c =
        (inr tt,
         mk_cache (<[key := value]> (cache_items_map c))
           (Touch key (cache_policy c)) (max_cache_size c), []) →
      Put_path c key value
  | path_insert :
      cache_items_map c !! key = None →
      size (cache_items_map c) < max_cache_size c →
      Put key value c =
        (inr tt,
         mk_cache (<[key := value]> (cache_items_map c))
           (Insert key (cache_policy c)) (max_cache_size c), []) →
      Put_path c key value
  | path_evict evict_key evicted :
      cache_items_map c !! key = None →
      max_cache_size c ≤ size (cache_items_map c) →
      ReplacementCandidate (cache_policy c) = inr evict_key →
      cache_items_map c !! evict_key = Some evicted →
      Put key value c =
        (inr tt,
         mk_cache (<[key := value]> (delete evict_key (cache_items_map c)))
           (Insert key (Erase evict_key (cache_policy c)))
           (max_cache_size c),
         [(evict_key, evicted)]) →
      Put_path c key value
  | path_stale evict_key :
      cache_items_map c !! key = None →
      max_cache_size c ≤ size (cache_items_map c) →
      ReplacementCandidate (cache_policy c) = inr evict_key →
      cache_items_map c !! evict_key = None →
      Put key value c =
        (inr tt,
         mk_cache (<[key := value]> (cache_items_map c))
           (Insert key (cache_policy c)) (max_cache_size c), []) →
      Put_path c key value
  | path_throw e :
      cache_items_map c !! key = None →
      max_cache_size c ≤ size (cache_items_map c) →
      ReplacementCandidate (cache_policy c) = inl e →
      Put key value c = (inl e, c, []) →
      Put_path c key value.
End paths.

(** * Further members and notions *)

Section more_definitions.
Context `{Countable K} {V P : Type} `{!ICachePolicy K P, !Tracking K P}.
Implicit Types (c : fixed_sized_cache K V P).

(** [begin()] and [end()]: the range they delimit, the entries of the map
    in its iteration order. *)
Definition iteration c : list (K * V) := map_to_list (cache_items_map c).

(** The calls that only look: [TryGet], [Get], [Cached], [Size]. *)
Definition is_lookup (o : op K V) : bool :=
  match o with
  | OpTryGet _ | OpGet _ | OpCached _ | OpSize => true
  | OpPut _ _ | OpRemove _ | OpClear => false
  end.

(** One [Put] per pair, in the order of the list. *)
Definition Puts (l : list (K * V)) : list (op K V) :=
  (λ kv, OpPut kv.1 kv.2) <$> l.

(** The states of a cache object that was constructed with a policy object
    tracking no keys. *)
Definition fresh_reachable c : Prop :=
  ∃ max_size pops c0 ops,
    tracked (policy_after (P := P) pops) = ∅ ∧
    fixed_sized_cache_ctor max_size (policy_after pops) = inr c0 ∧
    c = state_after ops c0.
End more_definitions.

(** * The list primitives *)

Section list_erase.
Context `{Countable K}.
Implicit Types (key x : K) (l : list K).

Lemma list_erase_absent key l : key ∉ l → list_erase key l = l.
Proof.
  induction l as [|x l IH]; simpl; [done|].
  rewrite not_elem_of_cons. intros [Hne Hl].
  rewrite decide_False by done. by rewrite IH.
Qed.

Lemma elem_of_list_erase key x l :
  NoDup l → x ∈ list_erase key l ↔ x ∈ l ∧ x ≠ key.
Proof.
  induction l as [|y l IH]; simpl; intros Hnd.
  - set_solver.
  - apply NoDup_cons in Hnd as [Hy Hnd]. case_decide as Heq.
    + subst y. rewrite elem_of_cons. split.
      * intros Hx. split; [by right|]. by intros ->.
      * intros [[?|?] ?]; done.
    + rewrite !elem_of_cons, IH by done. naive_solver.
Qed.

Lemma NoDup_list_erase key l : NoDup l → NoDup (list_erase key l).
Proof.
  induction l as [|y l IH]; simpl; intros Hnd; [done|].
  apply NoDup_cons in Hnd as [Hy Hnd]. case_decide; [done|].
  apply NoDup_cons. split; [|by apply IH].
  rewrite elem_of_list_erase by done. tauto.
Qed.

Lemma list_to_set_erase key l :
  NoDup l →
  list_to_set (list_erase key l) =@{gset K} list_to_set l ∖ {[key]}.
Proof.
  intros Hnd. apply set_eq. intros x.
  rewrite elem_of_difference, !elem_of_list_to_set, elem_of_list_erase by done.
  set_solver.
Qed.

Lemma NoDup_list_splice_front key l :
  NoDup l → NoDup (list_splice_front key l).
Proof.
  intros Hnd. apply NoDup_cons. split; [|by apply NoDup_list_erase].
  rewrite elem_of_list_erase by done. tauto.
Qed.

Lemma list_to_set_splice_front key l :
  NoDup l → key ∈ l →
  list_to_set (list_splice_front key l) =@{gset K} list_to_set l.
Proof.
  intros Hnd Hin. unfold list_splice_front. simpl.
  rewrite list_to_set_erase by done. apply set_eq. intros x.
  rewrite elem_of_union, elem_of_difference, elem_of_singleton,
    elem_of_list_to_set.
  destruct (decide (x = key)) as [->|]; naive_solver.
Qed.

Lemma list_to_set_empty_iff l : list_to_set l =@{gset K} ∅ ↔ l = [].
Proof.
  split; [|by intros ->]. destruct l as [|x l]; [done|]. set_solver.
Qed.
End list_erase.

(** * The four policies meet the contract *)

Section policy_laws.
Context `{Countable K}.

#[global] Instance NoCachePolicy_laws : PolicyLaws K (NoCachePolicy.t K).
Proof.
  split; try done.
  - intros [s] _. simpl. unfold NoCachePolicy.ReplacementCandidate. simpl.
    destruct (elements s) as [|x l] eqn:Hel.
    + apply elements_empty_inv in Hel. apply leibniz_equiv in Hel.
      split; [done|]. by eexists.
    + split; [by intros [? ?]|]. intros ->.
      by rewrite elements_empty in Hel.
  - intros [s] e. simpl. unfold NoCachePolicy.ReplacementCandidate.
    destruct (elements _); congruence.
  - intros [s] key _. simpl. unfold NoCachePolicy.ReplacementCandidate.
    simpl. destruct (elements s) as [|x l] eqn:Hel; [done|].
    intros [= <-]. apply elem_of_elements. rewrite Hel. by left.
Qed.

#[global] Instance FIFOCachePolicy_laws : PolicyLaws K (FIFOCachePolicy.t K).
Proof.
  split; simpl.
  - split; [constructor|done].
  - done.
  - intros key [q s] [Hnd Hs]. unfold FIFOCachePolicy.Insert. simpl in *.
    case_decide as Hin; [done|]. simpl. split; [|by rewrite Hs].
    apply NoDup_cons. split; [|done].
    by rewrite Hs, elem_of_list_to_set in Hin.
  - done.
  - intros key [q s] [Hnd Hs]. unfold FIFOCachePolicy.Erase. simpl in *.
    case_decide; [|done]. simpl. split; [by apply NoDup_list_erase|].
    by rewrite Hs, list_to_set_erase.
  - intros key [q s]. unfold FIFOCachePolicy.Insert. simpl.
    case_decide; [|done]. simpl. set_solver.
  - done.
  - intros key [q s]. unfold FIFOCachePolicy.Erase. simpl.
    case_decide; [done|]. simpl. set_solver.
  - intros [q s] [Hnd Hs]. unfold FIFOCachePolicy.ReplacementCandidate.
    simpl in *. rewrite Hs, list_to_set_empty_iff, <-last_None.
    destruct (last q); split; try done; [by intros [? ?]|by eexists].
  - intros [q s] e. unfold FIFOCachePolicy.ReplacementCandidate.
    destruct (last _); congruence.
  - intros [q s] key [Hnd Hs]. unfold FIFOCachePolicy.ReplacementCandidate.
    simpl in *. destruct (last q) as [x|] eqn:Hl; [|done]. intros [= <-].
    rewrite Hs, elem_of_list_to_set. rewrite last_Some in Hl.
    destruct Hl as [l' ->]. set_solver.
Qed.

#[global] Instance LIFOCachePolicy_laws : PolicyLaws K (LIFOCachePolicy.t K).
Proof.
  split; simpl.
  - split; [constructor|done].
  - done.
  - intros key [q s] [Hnd Hs]. unfold LIFOCachePolicy.Insert. simpl in *.
    case_decide as Hin; [done|]. simpl. split; [|by rewrite Hs].
    apply NoDup_cons. split; [|done].
    by rewrite Hs, elem_of_list_to_set in Hin.
  - done.
  - intros key [q s] [Hnd Hs]. unfold LIFOCachePolicy.Erase. simpl in *.
    case_decide; [|done]. simpl. split; [by apply NoDup_list_erase|].
    by rewrite Hs, list_to_set_erase.
  - intros key [q s]. unfold LIFOCachePolicy.Insert. simpl.
    case_decide; [|done]. simpl. set_solver.
  - done.
  - intros key [q s]. unfold LIFOCachePolicy.Erase. simpl.
    case_decide; [done|]. simpl. set_solver.
  - intros [q s] [Hnd Hs]. unfold LIFOCachePolicy.ReplacementCandidate.
    simpl in *. rewrite Hs, list_to_set_empty_iff.
    destruct q; split; try done; [by eexists|by intros [? ?]].
  - intros [q s] e. unfold LIFOCachePolicy.ReplacementCandidate.
    destruct (LIFOCachePolicy.lifo_stack _); congruence.
  - intros [q s] key [Hnd Hs]. unfold LIFOCachePolicy.ReplacementCandidate.
    simpl in *. destruct q as [|x q]; [done|]. intros [= <-].
    rewrite Hs. set_solver.
Qed.

#[global] Instance LRUCachePolicy_laws : PolicyLaws K (LRUCachePolicy.t K).
Proof.
  split; simpl.
  - split; [constructor|done].
  - done.
  - intros key [q s] [Hnd Hs]. unfold LRUCachePolicy.Insert. simpl in *.
    case_decide as Hin; [done|]. simpl. split; [|by rewrite Hs].
    apply NoDup_cons. split; [|done].
    by rewrite Hs, elem_of_list_to_set in Hin.
  - intros key [q s] [Hnd Hs]. unfold LRUCachePolicy.Touch. simpl in *.
    case_decide as Hin; [|done]. simpl.
    split; [by apply NoDup_list_splice_front|].
    rewrite Hs, elem_of_list_to_set in Hin.
    rewrite Hs. symmetry. by apply list_to_set_splice_front.
  - intros key [q s] [Hnd Hs]. unfold LRUCachePolicy.Erase. simpl in *.
    case_decide; [|done]. simpl. split; [by apply NoDup_list_erase|].
    by rewrite Hs, list_to_set_erase.
  - intros key [q s]. unfold LRUCachePolicy.Insert. simpl.
    case_decide; [|done]. simpl. set_solver.
  - intros key [q s]. unfold LRUCachePolicy.Touch. simpl.
    by case_decide.
  - intros key [q s]. unfold LRUCachePolicy.Erase. simpl.
    case_decide; [done|]. simpl. set_solver.
  - intros [q s] [Hnd Hs]. unfold LRUCachePolicy.ReplacementCandidate.
    simpl in *. rewrite Hs, list_to_set_empty_iff, <-last_None.
    destruct (last q); split; try done; [by intros [? ?]|by eexists].
  - intros [q s] e. unfold LRUCachePolicy.ReplacementCandidate.
    destruct (last _); congruence.
  - intros [q s] key [Hnd Hs]. unfold LRUCachePolicy.ReplacementCandidate.
    simpl in *. destruct (last q) as [x|] eqn:Hl; [|done]. intros [= <-].
    rewrite Hs, elem_of_list_to_set. rewrite last_Some in Hl.
    destruct Hl as [l' ->]. set_solver.
Qed.
End policy_laws.

(** * What each member function does, case by case *)

Ltac unfold_M :=
  repeat progress
    unfold step, Put, TryGet, Get, Cached, Size, Remove, Clear, Erase_key,
      Erase_it, Insert_entry, Update, lift, throw, on_erase_callback,
      get_map, get_policy, get_max_size, set_map, set_policy,
      mbind, M_bind, bind, mret, M_ret, ret;
  simpl.

Section equations.
Context `{Countable K} {V P : Type} `{!ICachePolicy K P}.
Implicit Types (c : fixed_sized_cache K V P) (key : K) (value : V).

Lemma map_emplace_fresh key value (m : gmap K V) :
  m !! key = None → map_emplace key value m = <[key := value]> m.
Proof. intros Hk. unfold map_emplace. by rewrite Hk. Qed.

Lemma Put_update c key value old :
  cache_items_map c !! key = Some old →
  Put key value c =
    (inr tt,
     mk_cache (<[key := value]> (cache_items_map c))
       (Touch key (cache_policy c)) (max_cache_size c),
     []).
Proof. intros Hk. unfold_M. by rewrite Hk. Qed.

Lemma Put_insert c key value :
  cache_items_map c !! key = None →
  size (cache_items_map c) < max_cache_size c →
  Put key value c =
    (inr tt,
     mk_cache (<[key := value]> (cache_items_map c))
       (Insert key (cache_policy c)) (max_cache_size c),
     []).
Proof.
  intros Hk Hsz. unfold_M. rewrite Hk.
  rewrite decide_False by lia. simpl. by rewrite map_emplace_fresh.
Qed.

Lemma Put_evict c key value evict_key evicted :
  cache_items_map c !! key = None →
  max_cache_size c ≤ size (cache_items_map c) →
  ReplacementCandidate (cache_policy c) = inr evict_key →
  cache_items_map c !! evict_key = Some evicted →
  Put key value c =
    (inr tt,
     mk_cache (<[key := value]> (delete evict_key (cache_items_map c)))
       (Insert key (Erase evict_key (cache_policy c))) (max_cache_size c),
     [(evict_key, evicted)]).
Proof.
  intros Hk Hsz Hcand He. unfold_M. rewrite Hk.
  rewrite decide_True by lia. rewrite Hcand, He. simpl.
  rewrite map_emplace_fresh; [done|].
  apply lookup_delete_None. by right.
Qed.

(** The candidate named by the policy has no entry: [Erase(key)] finds
    nothing and the new entry is added all the same. *)
Lemma Put_stale c key value evict_key :
  cache_items_map c !! key = None →
  max_cache_size c ≤ size (cache_items_map c) →
  ReplacementCandidate (cache_policy c) = inr evict_key →
  cache_items_map c !! evict_key = None →
  Put key value c =
    (inr tt,
     mk_cache (<[key := value]> (cache_items_map c))
       (Insert key (cache_policy c)) (max_cache_size c),
     []).
Proof.
  intros Hk Hsz Hcand He. unfold_M. rewrite Hk.
  rewrite decide_True by lia. rewrite Hcand, He. simpl.
  by rewrite map_emplace_fresh.
Qed.

Lemma Put_throw c key value e :
  cache_items_map c !! key = None →
  max_cache_size c ≤ size (cache_items_map c) →
  ReplacementCandidate (cache_policy c) = inl e →
  Put key value c = (inl e, c, []).
Proof.
  intros Hk Hsz Hcand. unfold_M. rewrite Hk.
  rewrite decide_True by lia. rewrite Hcand. done.
Qed.

Lemma TryGet_hit c key value :
  cache_items_map c !! key = Some value →
  TryGet key c =
    (inr (Some (key, value), true),
     mk_cache (cache_items_map c) (Touch key (cache_policy c))
       (max_cache_size c),
     []).
Proof. intros Hk. unfold_M. by rewrite Hk. Qed.

Lemma TryGet_miss c key :
  cache_items_map c !! key = None →
  TryGet key c = (inr (None, false), c, []).
Proof. intros Hk. unfold_M. by rewrite Hk. Qed.

Lemma Get_hit c key value :
  cache_items_map c !! key = Some value →
  Get key c =
    (inr value,
     mk_cache (cache_items_map c) (Touch key (cache_policy c))
       (max_cache_size c),
     []).
Proof. intros Hk. unfold_M. by rewrite Hk. Qed.

Lemma Get_miss c key :
  cache_items_map c !! key = None →
  Get key c = (inl range_error, c, []).
Proof. intros Hk. unfold_M. by rewrite Hk. Qed.

Lemma Remove_present c key value :
  cache_items_map c !! key = Some value →
  Remove key c =
    (inr true,
     mk_cache (delete key (cache_items_map c))
       (Erase key (cache_policy c)) (max_cache_size c),
     [(key, value)]).
Proof. intros Hk. unfold_M. by rewrite Hk. Qed.

Lemma Remove_absent c key :
  cache_items_map c !! key = None →
  Remove key c = (inr false, c, []).
Proof. intros Hk. unfold_M. by rewrite Hk. Qed.

Lemma Clear_eq c :
  Clear c =
    (inr tt,
     mk_cache ∅
       (foldl (λ p kv, Erase kv.1 p) (cache_policy c)
          (map_to_list (cache_items_map c)))
       (max_cache_size c),
     []).
Proof. done. Qed.

Lemma Cached_eq c key :
  Cached key c = (inr (bool_decide (is_Some (cache_items_map c !! key))), c, []).
Proof. done. Qed.

Lemma Size_eq c : Size c = (inr (size (cache_items_map c)), c, []).
Proof. done. Qed.

Lemma step_outcome (o : op K V) c :
  ((step o c).1.2, (step o c).2) = member_outcome o c.
Proof.
  destruct o; unfold step, member_outcome, mbind, M_bind, bind;
    match goal with |- context [?m c] =>
      lazymatch m with
      | Put _ _ => idtac | TryGet _ => idtac | Get _ => idtac
      | Cached _ => idtac | Size => idtac | Remove _ => idtac
      | Clear => idtac
      end;
      destruct (m c) as [[[e|a] c1] calls1]
    end; simpl; by rewrite ?app_nil_r.
Qed.

Lemma step_state (o : op K V) c : (step o c).1.2 = (member_outcome o c).1.
Proof. by rewrite <-step_outcome. Qed.

Lemma step_calls (o : op K V) c : (step o c).2 = (member_outcome o c).2.
Proof. by rewrite <-step_outcome. Qed.

Lemma run_app (ops1 ops2 : list (op K V)) c :
  run (ops1 ++ ops2) c =
    (((run ops1 c).1.1 ++ (run ops2 (state_after ops1 c)).1.1),
     state_after ops2 (state_after ops1 c),
     calls_during ops1 c ++ calls_during ops2 (state_after ops1 c)).
Proof.
  unfold state_after, calls_during. revert c.
  induction ops1 as [|o ops1 IH]; intros c; simpl.
  - by destruct (run ops2 c) as [[??]?].
  - destruct (step o c) as [[r c1] calls1]. rewrite IH.
    destruct (run ops1 c1) as [[rs c2] calls2]. simpl.
    by rewrite app_assoc.
Qed.

Lemma state_after_snoc (ops : list (op K V)) o c :
  state_after (ops ++ [o]) c = (step o (state_after ops c)).1.2.
Proof.
  unfold state_after at 1. rewrite run_app. simpl.
  unfold state_after at 1. simpl.
  by destruct (step o _) as [[??]?].
Qed.
End equations.

Section put_cases.
Context `{Countable K} {V P : Type} `{!ICachePolicy K P}.
Implicit Types (c : fixed_sized_cache K V P) (key : K) (value : V).

Lemma Put_cases c key value : Put_path c key value.
Proof.
  destruct (cache_items_map c !! key) as [old|] eqn:Hk.
  { eapply path_update; eauto using Put_update. }
  destruct (decide (max_cache_size c ≤ size (cache_items_map c))) as [Hsz|Hsz].
  2: { eapply path_insert; [done|lia|]. apply Put_insert; [done|lia]. }
  destruct (ReplacementCandidate (cache_policy c)) as [e|evict_key] eqn:Hc.
  { eapply path_throw; eauto using Put_throw. }
  destruct (cache_items_map c !! evict_key) as [evicted|] eqn:He.
  - eapply path_evict; eauto using Put_evict.
  - eapply path_stale; eauto using Put_stale.
Qed.
End put_cases.

(** * Preservation of the invariants *)

Section preservation.
Context `{Countable K} {V P : Type}.
Context `{!ICachePolicy K P, !Tracking K P, !PolicyLaws K P}.
Implicit Types (c : fixed_sized_cache K V P) (key : K) (value : V) (p : P).

Lemma policy_after_ok (pops : list (policy_op K)) :
  policy_ok (policy_after (P := P) pops).
Proof.
  unfold policy_after.
  induction pops as [|o pops IH] using rev_ind; simpl.
  - apply new_policy_ok.
  - rewrite foldl_app. simpl.
    destruct o; simpl; auto using Insert_ok, Touch_ok, Erase_ok.
Qed.

Lemma Clear_policy_ok p (l : list (K * V)) :
  policy_ok p → policy_ok (foldl (λ p' kv, Erase kv.1 p') p l).
Proof.
  revert p. induction l as [|kv l IH]; intros p Hp; simpl; [done|].
  apply IH. by apply Erase_ok.
Qed.

Lemma Clear_policy_tracked p (l : list (K * V)) :
  tracked (foldl (λ p' kv, Erase kv.1 p') p l) =
  tracked p ∖ list_to_set l.*1.
Proof.
  revert p. induction l as [|kv l IH]; intros p; simpl.
  - set_solver.
  - rewrite IH, tracked_Erase. set_solver.
Qed.

Lemma Clear_policy_tracked_map p (m : gmap K V) :
  tracked (foldl (λ p' kv, Erase kv.1 p') p (map_to_list m)) =
  tracked p ∖ dom m.
Proof.
  rewrite Clear_policy_tracked. f_equal.
  apply set_eq. intros k.
  rewrite elem_of_list_to_set, elem_of_dom, list_elem_of_fmap.
  split.
  - intros [[k' v] [-> Hin]]. apply elem_of_map_to_list in Hin. by eexists.
  - intros [v Hv]. exists (k, v). split; [done|].
    by apply elem_of_map_to_list.
Qed.

(** With every key of the map known to the policy, a full map means a
    policy that can name a candidate. *)
Lemma candidate_exists c :
  cache_sound c →
  max_cache_size c ≤ size (cache_items_map c) →
  ∃ evict_key, ReplacementCandidate (cache_policy c) = inr evict_key.
Proof.
  intros (Hok & Hpos & Hsub) Hsz.
  destruct (ReplacementCandidate (cache_policy c)) as [e|k] eqn:Hc;
    [|by eexists].
  assert (tracked (cache_policy c) = ∅) as Hempty.
  { apply candidate_throws; [done|by eexists]. }
  assert (cache_items_map c = ∅) as Hm.
  { apply (dom_empty_iff_L (D := gset K)). set_solver. }
  rewrite Hm, map_size_empty in Hsz. lia.
Qed.

Lemma Put_returns c key value :
  cache_sound c →
  ∃ c' calls, Put key value c = (inr tt, c', calls).
Proof.
  intros Hs. destruct (Put_cases c key value) as
    [old ? ->| ? ? ->|ek ev ? ? ? ? ->|ek ? ? ? ? ->|e ? Hsz Hc ?]; eauto.
  destruct (candidate_exists c Hs Hsz) as [k Hk]. congruence.
Qed.

Lemma Put_sound c key value :
  cache_sound c → cache_sound (Put key value c).1.2.
Proof.
  intros Hs. pose proof Hs as (Hok & Hpos & Hsub).
  destruct (Put_cases c key value) as
    [old Hk ->| Hk ? ->|ek ev Hk ? ? ? ->|ek Hk ? ? ? ->|e ? ? ? ->];
    unfold cache_sound; simpl; [| | | |done].
  - split_and!; [by apply Touch_ok|done|].
    rewrite tracked_Touch, dom_insert_L.
    apply elem_of_dom_2 in Hk. set_solver.
  - split_and!; [by apply Insert_ok|done|].
    rewrite tracked_Insert, dom_insert_L. set_solver.
  - split_and!; [by apply Insert_ok, Erase_ok|done|].
    rewrite tracked_Insert, tracked_Erase, dom_insert_L, dom_delete_L.
    set_solver.
  - split_and!; [by apply Insert_ok|done|].
    rewrite tracked_Insert, dom_insert_L. set_solver.
Qed.
End preservation.

Section exactness.
Context `{Countable K} {V P : Type}.
Context `{!ICachePolicy K P, !Tracking K P, !PolicyLaws K P}.
Implicit Types (c : fixed_sized_cache K V P) (key : K) (value : V) (p : P).

Lemma exact_sound c : cache_exact c → cache_sound c.
Proof. intros (? & ? & Heq & ?). split_and!; [done..|]. by rewrite Heq. Qed.

Lemma size_evict_insert (m : gmap K V) key value evict_key evicted :
  m !! key = None → m !! evict_key = Some evicted →
  size (<[key := value]> (delete evict_key m)) = size m.
Proof.
  intros Hk He.
  rewrite map_size_insert_None.
  2: { rewrite lookup_delete_ne; [done|congruence]. }
  rewrite map_size_delete_Some by eauto.
  assert (size m ≠ 0); [|lia].
  apply map_size_non_empty_iff. intros ->. by rewrite lookup_empty in He.
Qed.

Lemma Put_exact c key value :
  cache_exact c → cache_exact (Put key value c).1.2.
Proof.
  intros He. pose proof He as (Hok & Hpos & Heq & Hsz).
  destruct (Put_cases c key value) as
    [old Hk ->| Hk ? ->|ek ev Hk ? ? Hek ->|ek Hk ? Hc Hek ->|e ? Hfull Hc ->];
    unfold cache_exact; simpl.
  - split_and!; [by apply Touch_ok|done| |].
    + rewrite tracked_Touch, dom_insert_L, Heq.
      apply elem_of_dom_2 in Hk. set_solver.
    + by rewrite map_size_insert_Some.
  - split_and!; [by apply Insert_ok|done| |].
    + by rewrite tracked_Insert, dom_insert_L, Heq.
    + rewrite map_size_insert_None by done. lia.
  - split_and!; [by apply Insert_ok, Erase_ok|done| |].
    + by rewrite tracked_Insert, tracked_Erase, dom_insert_L, dom_delete_L,
        Heq.
    + by rewrite (size_evict_insert _ _ _ _ ev).
  - apply candidate_tracked in Hc; [|done].
    rewrite Heq in Hc. apply elem_of_dom in Hc as [? ?]. congruence.
  - destruct (candidate_exists c (exact_sound c He) Hfull). congruence.
Qed.

Lemma step_exact (o : op K V) c :
  cache_exact c → cache_exact (step o c).1.2.
Proof.
  intros He. pose proof He as (Hok & Hpos & Heq & Hsz).
  rewrite step_state.
  destruct o as [key value|key|key|key| |key|]; unfold cache_exact; simpl.
  - by apply Put_exact.
  - destruct (cache_items_map c !! key) as [v|] eqn:Hk.
    + rewrite (TryGet_hit c key v Hk). simpl.
      split_and!; [by apply Touch_ok|done| |done].
      by rewrite tracked_Touch.
    + by rewrite (TryGet_miss c key Hk).
  - destruct (cache_items_map c !! key) as [v|] eqn:Hk.
    + rewrite (Get_hit c key v Hk). simpl.
      split_and!; [by apply Touch_ok|done| |done].
      by rewrite tracked_Touch.
    + by rewrite (Get_miss c key Hk).
  - done.
  - done.
  - destruct (cache_items_map c !! key) as [v|] eqn:Hk.
    + rewrite (Remove_present c key v Hk). simpl.
      split_and!; [by apply Erase_ok|done| |].
      * by rewrite tracked_Erase, dom_delete_L, Heq.
      * rewrite map_size_delete_Some by eauto. lia.
    + by rewrite (Remove_absent c key Hk).
  - split_and!; [by apply Clear_policy_ok|done| |].
    + rewrite Clear_policy_tracked_map, dom_empty_L, Heq. set_solver.
    + rewrite map_size_empty. lia.
Qed.

Lemma run_exact (ops : list (op K V)) c :
  cache_exact c → cache_exact (state_after ops c).
Proof.
  induction ops as [|o ops IH] using rev_ind; [done|].
  intros Hs. rewrite state_after_snoc. by apply step_exact, IH.
Qed.

Lemma ctor_exact max_size (pops : list (policy_op K)) c :
  tracked (policy_after (P := P) pops) = ∅ →
  fixed_sized_cache_ctor (V := V) max_size (policy_after pops) = inr c →
  cache_exact c.
Proof.
  intros Hempty. unfold fixed_sized_cache_ctor.
  case_decide; [done|]. intros [= <-].
  split_and!; simpl; [apply policy_after_ok|lia| |].
  - by rewrite dom_empty_L.
  - rewrite map_size_empty. lia.
Qed.

(** The capacity is a constant of the object. *)
Lemma step_max_cache_size (o : op K V) c :
  max_cache_size (step o c).1.2 = max_cache_size c.
Proof.
  rewrite step_state.
  destruct o as [key value|key|key|key| |key|]; simpl; try done.
  - by destruct (Put_cases c key value) as
      [? ? ->|? ? ->|? ? ? ? ? ? ->|? ? ? ? ? ->|? ? ? ? ->].
  - destruct (cache_items_map c !! key) as [v|] eqn:Hk.
    + by rewrite (TryGet_hit c key v Hk).
    + by rewrite (TryGet_miss c key Hk).
  - destruct (cache_items_map c !! key) as [v|] eqn:Hk.
    + by rewrite (Get_hit c key v Hk).
    + by rewrite (Get_miss c key Hk).
  - destruct (cache_items_map c !! key) as [v|] eqn:Hk.
    + by rewrite (Remove_present c key v Hk).
    + by rewrite (Remove_absent c key Hk).
Qed.

Lemma run_max_cache_size (ops : list (op K V)) c :
  max_cache_size (state_after ops c) = max_cache_size c.
Proof.
  induction ops as [|o ops IH] using rev_ind; [done|].
  by rewrite state_after_snoc, step_max_cache_size.
Qed.
End exactness.

(** * Entries removed by a call *)

Section removed.
Context `{Countable K} {V P : Type} `{!ICachePolicy K P}.
Implicit Types (c : fixed_sized_cache K V P) (m : gmap K V).

Lemma removed_none c c' :
  (∀ k, is_Some (cache_items_map c !! k) → is_Some (cache_items_map c' !! k)) →
  removed_entries c c' = ∅.
Proof.
  intros Hkeep. apply map_empty. intros k.
  apply map_lookup_filter_None.
  destruct (cache_items_map c !! k) as [v|] eqn:Hk; [right|by left].
  intros x _. simpl. destruct (Hkeep k) as [y Hy]; [by eexists|].
  by rewrite Hy.
Qed.

Lemma removed_one c c' k v :
  cache_items_map c !! k = Some v →
  cache_items_map c' !! k = None →
  (∀ k', k' ≠ k → is_Some (cache_items_map c !! k') →
         is_Some (cache_items_map c' !! k')) →
  removed_entries c c' = {[k := v]}.
Proof.
  intros Hk Hk' Hkeep. apply map_eq. intros i. apply option_eq. intros x.
  unfold removed_entries.
  rewrite map_lookup_filter_Some, lookup_singleton_Some. simpl. split.
  - intros [Hi Hnone]. destruct (decide (i = k)) as [->|Hne].
    + split; [done|congruence].
    + destruct (Hkeep i Hne) as [y Hy]; [by eexists|]. congruence.
  - intros [<- <-]. done.
Qed.

Lemma removed_by_Put c key value :
  (Put key value c).2 =
  map_to_list (removed_entries c (Put key value c).1.2).
Proof.
  destruct (Put_cases c key value) as
    [old Hk ->| Hk ? ->|ek ev Hk ? ? Hek ->|ek Hk ? Hc Hek ->|e ? Hfull Hc ->];
    simpl.
  - rewrite removed_none; [by rewrite map_to_list_empty|]. simpl.
    intros k Hs. rewrite lookup_insert. by case_decide.
  - rewrite removed_none; [by rewrite map_to_list_empty|]. simpl.
    intros k Hs. rewrite lookup_insert. by case_decide.
  - rewrite (removed_one _ _ ek ev); [by rewrite map_to_list_singleton|done|..];
      simpl.
    + rewrite lookup_insert_ne by congruence. apply lookup_delete_eq.
    + intros k' Hne Hs. rewrite lookup_insert. case_decide; [done|].
      by rewrite lookup_delete_ne.
  - rewrite removed_none; [by rewrite map_to_list_empty|]. simpl.
    intros k Hs. rewrite lookup_insert. by case_decide.
  - rewrite removed_none; [by rewrite map_to_list_empty|]. done.
Qed.
End removed.

(** * Claims *)

(** C3 (as amended).  [on_erase_callback] is called once for every entry
    that a call of [Put], [TryGet], [Get], [Cached], [Size] or [Remove] takes
    out of the map, with that entry's key and value, and not otherwise;
    [Clear] takes out every entry and makes no call at all. *)
Theorem on_erase_callback_per_removal `{Countable K} {V P : Type}
    `{!ICachePolicy K P} (o : op K V) (c : fixed_sized_cache K V P) :
  (step o c).2 =
    match o with
    | OpClear => []
    | _ => map_to_list (removed_entries c (step o c).1.2)
    end
  ∧ cache_items_map (step OpClear c).1.2 = ∅.
Proof.
  split; [|by rewrite step_state].
  rewrite step_calls, step_state.
  destruct o as [key value|key|key|key| |key|]; simpl; try done.
  - apply removed_by_Put.
  - destruct (cache_items_map c !! key) as [v|] eqn:Hk.
    + rewrite (TryGet_hit c key v Hk). simpl.
      by rewrite removed_none, map_to_list_empty.
    + rewrite (TryGet_miss c key Hk). simpl.
      by rewrite removed_none, map_to_list_empty.
  - destruct (cache_items_map c !! key) as [v|] eqn:Hk.
    + rewrite (Get_hit c key v Hk). simpl.
      by rewrite removed_none, map_to_list_empty.
    + rewrite (Get_miss c key Hk). simpl.
      by rewrite removed_none, map_to_list_empty.
  - by rewrite removed_none, map_to_list_empty.
  - by rewrite removed_none, map_to_list_empty.
  - destruct (cache_items_map c !! key) as [v|] eqn:Hk.
    + rewrite (Remove_present c key v Hk). simpl.
      rewrite (removed_one _ _ key v); [by rewrite map_to_list_singleton|done|..];
        simpl.
      * apply lookup_delete_eq.
      * intros k' Hne Hs. by rewrite lookup_delete_ne.
    + rewrite (Remove_absent c key Hk). simpl.
      by rewrite removed_none, map_to_list_empty.
Qed.

(** C3 as stated fails for [Clear]: a cache of capacity 2 holding the one
    entry (1, 10) is cleared; the entry is gone and the callback was not
    called. *)
Lemma on_erase_callback_not_on_Clear :
  ∃ c0 : fixed_sized_cache nat nat (LRUCachePolicy.t nat),
    fixed_sized_cache_ctor 2 new_policy = inr c0 ∧
    cache_items_map (state_after [OpPut 1 10] c0) !! 1 = Some 10 ∧
    cache_items_map (Clear (state_after [OpPut 1 10] c0)).1.2 !! 1 = None ∧
    (Clear (state_after [OpPut 1 10] c0)).2 = [].
Proof. eexists. split; [reflexivity|]. by vm_compute. Qed.

(** C9.  For a key with no entry, [Get] throws [std::range_error] (the
    spec's KeyNotFound) while [TryGet] returns the end iterator with
    found = false and throws nothing; both leave the map, the policy and the
    capacity as they were and make no callback call. *)
Theorem Get_throws_TryGet_reports `{Countable K} {V P : Type}
    `{!ICachePolicy K P} (c : fixed_sized_cache K V P) (key : K) :
  cache_items_map c !! key = None →
  Get key c = (inl range_error, c, []) ∧
  TryGet key c = (inr (None, false), c, []).
Proof. intros Hk. split; [by apply Get_miss|by apply TryGet_miss]. Qed.

Lemma Get_throws_TryGet_reports_witness :
  cache_items_map (mk_cache (<[1 := 10]> ∅) (Insert 1 new_policy) 2
                   : fixed_sized_cache nat nat (LRUCachePolicy.t nat)) !! 7
    = None ∧
  Get 7 (mk_cache (<[1 := 10]> ∅) (Insert 1 new_policy) 2
         : fixed_sized_cache nat nat (LRUCachePolicy.t nat)) =
    (inl range_error, mk_cache (<[1 := 10]> ∅) (Insert 1 new_policy) 2, []) ∧
  TryGet 7 (mk_cache (<[1 := 10]> ∅) (Insert 1 new_policy) 2
            : fixed_sized_cache nat nat (LRUCachePolicy.t nat)) =
    (inr (None, false), mk_cache (<[1 := 10]> ∅) (Insert 1 new_policy) 2, []).
Proof.
  split; [reflexivity|].
  apply (Get_throws_TryGet_reports
           (mk_cache (<[1 := 10]> ∅) (Insert 1 new_policy) 2
            : fixed_sized_cache nat nat (LRUCachePolicy.t nat)) 7).
  reflexivity.
Defined.

Section update.
Context `{Countable K} {V P : Type}.
Context `{!ICachePolicy K P, !Tracking K P, !PolicyLaws K P}.

Lemma Put_update_frame (c : fixed_sized_cache K V P) key value old :
  cache_items_map c !! key = Some old →
  Put key value c =
    (inr tt,
     mk_cache (<[key := value]> (cache_items_map c))
       (Touch key (cache_policy c)) (max_cache_size c),
     []) ∧
  removed_entries c (Put key value c).1.2 = ∅ ∧
  dom (cache_items_map (Put key value c).1.2) = dom (cache_items_map c) ∧
  size (cache_items_map (Put key value c).1.2) = size (cache_items_map c) ∧
  (∀ key', key' ≠ key →
     cache_items_map (Put key value c).1.2 !! key' =
     cache_items_map c !! key') ∧
  tracked (cache_policy (Put key value c).1.2) = tracked (cache_policy c).
Proof.
  intros Hk. rewrite (Put_update c key value old Hk). simpl. split_and!.
  - done.
  - apply removed_none. simpl. intros k Hs.
    rewrite lookup_insert. by case_decide.
  - rewrite dom_insert_L. apply elem_of_dom_2 in Hk. set_solver.
  - by rewrite map_size_insert_Some.
  - intros key' Hne. by rewrite lookup_insert_ne.
  - apply tracked_Touch.
Qed.
End update.

(** C10.  [Put] of a key that has an entry returns normally, calls the
    callback not at all and takes no entry out, whatever the size of the
    map: the new map is the old one with the value of [key] replaced, the
    new policy is the old one after [Touch(key)], the capacity stays; the
    keys and their number are unchanged and every other key keeps its
    value.  In each of the four policies [Touch] keeps the tracked keys. *)
Theorem Put_existing_key_only_updates `{Countable K} (V : Type) :
  every_policy (λ P (_ : ICachePolicy K P) (_ : Tracking K P),
    ∀ (c : fixed_sized_cache K V P) (key : K) (value old : V),
      cache_items_map c !! key = Some old →
      Put key value c =
        (inr tt,
         mk_cache (<[key := value]> (cache_items_map c))
           (Touch key (cache_policy c)) (max_cache_size c),
         []) ∧
      removed_entries c (Put key value c).1.2 = ∅ ∧
      dom (cache_items_map (Put key value c).1.2) = dom (cache_items_map c) ∧
      size (cache_items_map (Put key value c).1.2) = size (cache_items_map c) ∧
      (∀ key', key' ≠ key →
         cache_items_map (Put key value c).1.2 !! key' =
         cache_items_map c !! key') ∧
      tracked (cache_policy (Put key value c).1.2) = tracked (cache_policy c)).
Proof.
  unfold every_policy. split_and!; intros; by eapply Put_update_frame.
Qed.

Lemma Put_existing_key_only_updates_witness :
  cache_items_map (mk_cache (<[1 := 10]> ∅) (Insert 1 new_policy) 1
                   : fixed_sized_cache nat nat (LRUCachePolicy.t nat)) !! 1
    = Some 10 ∧
  Put 1 11 (mk_cache (<[1 := 10]> ∅) (Insert 1 new_policy) 1
            : fixed_sized_cache nat nat (LRUCachePolicy.t nat)) =
    (inr tt, mk_cache (<[1 := 11]> (<[1 := 10]> ∅))
               (Touch 1 (Insert 1 new_policy)) 1, []).
Proof.
  split; [reflexivity|].
  refine (proj1 (proj2 (proj2 (proj2 (Put_existing_key_only_updates nat)))
           (mk_cache (<[1 := 10]> ∅) (Insert 1 new_policy) 1) 1 11 10 _)).
  reflexivity.
Defined.

Section removal.
Context `{Countable K} {V P : Type}.
Context `{!ICachePolicy K P, !Tracking K P, !PolicyLaws K P}.
Implicit Types (c : fixed_sized_cache K V P) (key : K) (value : V).

Lemma Clear_effect c :
  (Clear c).1.1 = inr tt ∧
  (Clear c).2 = [] ∧
  cache_items_map (Clear c).1.2 = ∅ ∧
  Size (Clear c).1.2 = (inr 0, (Clear c).1.2, []) ∧
  max_cache_size (Clear c).1.2 = max_cache_size c ∧
  (∀ key, key ∈ dom (cache_items_map c) →
          key ∉ tracked (cache_policy (Clear c).1.2)) ∧
  (tracked (cache_policy c) = dom (cache_items_map c) →
   tracked (cache_policy (Clear c).1.2) = ∅).
Proof.
  rewrite Clear_eq. simpl. split_and!; try done.
  - intros key Hin. rewrite Clear_policy_tracked_map. set_solver.
  - intros Heq. rewrite Clear_policy_tracked_map, Heq. set_solver.
Qed.

Lemma Put_eviction_effect c key value evict_key evicted :
  cache_items_map c !! key = None →
  max_cache_size c ≤ size (cache_items_map c) →
  ReplacementCandidate (cache_policy c) = inr evict_key →
  cache_items_map c !! evict_key = Some evicted →
  (Put key value c).2 = [(evict_key, evicted)] ∧
  cache_items_map (Put key value c).1.2 !! evict_key = None ∧
  evict_key ∉ tracked (cache_policy (Put key value c).1.2).
Proof.
  intros Hk Hsz Hc He.
  rewrite (Put_evict c key value evict_key evicted) by done. simpl.
  assert (key ≠ evict_key) by congruence.
  split_and!; [done| |].
  - rewrite lookup_insert_ne by done. apply lookup_delete_eq.
  - rewrite tracked_Insert, tracked_Erase. set_solver.
Qed.

Lemma Remove_effect c key value :
  cache_items_map c !! key = Some value →
  (Remove key c).1.1 = inr true ∧
  (Remove key c).2 = [(key, value)] ∧
  cache_items_map (Remove key c).1.2 !! key = None ∧
  key ∉ tracked (cache_policy (Remove key c).1.2).
Proof.
  intros Hk. rewrite (Remove_present c key value Hk). simpl.
  split_and!; [done|done| |].
  - apply lookup_delete_eq.
  - rewrite tracked_Erase. set_solver.
Qed.

Lemma Put_evicts_only_when_full c key value :
  cache_exact c →
  removed_entries c (Put key value c).1.2 ≠ ∅ →
  cache_items_map c !! key = None ∧
  size (cache_items_map c) = max_cache_size c.
Proof.
  intros (Hok & Hpos & Heq & Hsz) Hrem.
  destruct (Put_cases c key value) as
    [old Hk Hp| Hk ? Hp|ek ev Hk ? ? Hek Hp|ek Hk ? Hc Hek Hp|e ? Hfull Hc Hp];
    rewrite Hp in Hrem; simpl in Hrem.
  - destruct Hrem. apply removed_none. simpl.
    intros k Hs. rewrite lookup_insert. by case_decide.
  - destruct Hrem. apply removed_none. simpl.
    intros k Hs. rewrite lookup_insert. by case_decide.
  - split; [done|lia].
  - destruct Hrem. apply removed_none. simpl.
    intros k Hs. rewrite lookup_insert. by case_decide.
  - destruct Hrem. by apply removed_none.
Qed.

End removal.

(** C4.  [Clear] returns without a single callback call; afterwards the map
    is empty, [Size] answers 0, the capacity is the same, no key of the map
    is tracked by the policy any more, and a policy that tracked the keys of
    the map tracks none.  A [Put] that evicts (new key, full map, the
    candidate has an entry) calls the callback once, with the candidate and
    the value stored for it; a [Remove] of a key that has an entry returns
    true and calls the callback once, with the key and its stored value.
    In both the entry and the policy's record of the key are gone. *)
Theorem Clear_silent_Remove_and_eviction_notify `{Countable K} (V : Type) :
  every_policy (λ P (_ : ICachePolicy K P) (_ : Tracking K P),
    ∀ c : fixed_sized_cache K V P,
      ((Clear c).1.1 = inr tt ∧
       (Clear c).2 = [] ∧
       cache_items_map (Clear c).1.2 = ∅ ∧
       Size (Clear c).1.2 = (inr 0, (Clear c).1.2, []) ∧
       max_cache_size (Clear c).1.2 = max_cache_size c ∧
       (∀ key, key ∈ dom (cache_items_map c) →
               key ∉ tracked (cache_policy (Clear c).1.2)) ∧
       (tracked (cache_policy c) = dom (cache_items_map c) →
        tracked (cache_policy (Clear c).1.2) = ∅)) ∧
      (∀ key value evict_key evicted,
         cache_items_map c !! key = None →
         max_cache_size c ≤ size (cache_items_map c) →
         ReplacementCandidate (cache_policy c) = inr evict_key →
         cache_items_map c !! evict_key = Some evicted →
         (Put key value c).2 = [(evict_key, evicted)] ∧
         cache_items_map (Put key value c).1.2 !! evict_key = None ∧
         evict_key ∉ tracked (cache_policy (Put key value c).1.2)) ∧
      (∀ key value,
         cache_items_map c !! key = Some value →
         (Remove key c).1.1 = inr true ∧
         (Remove key c).2 = [(key, value)] ∧
         cache_items_map (Remove key c).1.2 !! key = None ∧
         key ∉ tracked (cache_policy (Remove key c).1.2))).
Proof.
  unfold every_policy. split_and!; intros c;
    (split; [apply Clear_effect|]);
    (split; [intros; by apply Put_eviction_effect
            |intros; by apply Remove_effect]).
Qed.

Lemma Clear_silent_Remove_and_eviction_notify_witness :
  (cache_items_map (mk_cache (<[1 := 10]> ∅) (Insert 1 new_policy) 1
                    : fixed_sized_cache nat nat (LRUCachePolicy.t nat)) !! 2
     = None ∧
   1 ≤ size (<[1 := 10]> ∅ : gmap nat nat) ∧
   ReplacementCandidate (Insert 1 new_policy : LRUCachePolicy.t nat) = inr 1 ∧
   (<[1 := 10]> ∅ : gmap nat nat) !! 1 = Some 10) ∧
  (Put 2 20 (mk_cache (<[1 := 10]> ∅) (Insert 1 new_policy) 1
             : fixed_sized_cache nat nat (LRUCachePolicy.t nat))).2
    = [(1, 10)] ∧
  (Remove 1 (mk_cache (<[1 := 10]> ∅) (Insert 1 new_policy) 1
             : fixed_sized_cache nat nat (LRUCachePolicy.t nat))).2
    = [(1, 10)].
Proof.
  split; [by vm_compute|].
  pose proof (proj2 (proj2 (proj2
    (Clear_silent_Remove_and_eviction_notify (K := nat) nat)))
    (mk_cache (<[1 := 10]> ∅) (Insert 1 new_policy) 1)) as (_ & HPut & HRemove).
  split.
  - refine (proj1 (HPut 2 20 1 10 _ _ _ _)); by vm_compute.
  - refine (proj1 (proj2 (HRemove 1 10 _))); by vm_compute.
Defined.

Section from_construction.
Context `{Countable K} {V P : Type}.
Context `{!ICachePolicy K P, !Tracking K P, !PolicyLaws K P}.
Implicit Types (c : fixed_sized_cache K V P) (key : K) (value : V).

Lemma constructed_empty_exact max_size (pops : list (policy_op K)) c0
    (ops : list (op K V)) :
  tracked (policy_after (P := P) pops) = ∅ →
  fixed_sized_cache_ctor max_size (policy_after pops) = inr c0 →
  cache_exact (state_after ops c0) ∧
  max_cache_size (state_after ops c0) = max_size.
Proof.
  intros Hempty Hctor. split.
  - eapply run_exact, ctor_exact; eauto.
  - rewrite run_max_cache_size. unfold fixed_sized_cache_ctor in Hctor.
    case_decide; [done|]. by injection Hctor as <-.
Qed.

Lemma fresh_reachable_exact c : fresh_reachable c → cache_exact c.
Proof.
  intros (max_size & pops & c0 & ops & Hempty & Hctor & ->).
  eapply constructed_empty_exact; eauto.
Qed.

Lemma fresh_reachable_sound c : fresh_reachable c → cache_sound c.
Proof. intros Hr. by apply exact_sound, fresh_reachable_exact. Qed.

Lemma candidate_throws_iff_empty (pops : list (policy_op K)) :
  ReplacementCandidate (policy_after (P := P) pops) = inl runtime_error ↔
  tracked (policy_after (P := P) pops) = ∅.
Proof.
  rewrite <-(candidate_throws _ (policy_after_ok pops)). split.
  - by eexists.
  - intros [e He]. by rewrite He, (candidate_exception _ _ He).
Qed.

Lemma Put_throw_only_from_candidate c key value e :
  (Put key value c).1.1 = inl e →
  cache_items_map c !! key = None ∧
  max_cache_size c ≤ size (cache_items_map c) ∧
  ReplacementCandidate (cache_policy c) = inl e.
Proof.
  destruct (Put_cases c key value) as
    [old Hk ->| Hk ? ->|ek ev Hk ? ? Hek ->|ek Hk ? Hc Hek ->|e' ? Hfull Hc ->];
    simpl; try done.
  by intros [= <-].
Qed.

Lemma step_throw_only_Get (o : op K V) c e :
  cache_sound c →
  (step o c).1.1 = inl e →
  e = range_error ∧ ∃ key, o = OpGet key ∧ cache_items_map c !! key = None.
Proof.
  intros Hs. destruct o as [key value|key|key|key| |key|];
    unfold step, mbind, M_bind, bind.
  - destruct (Put_returns c key value Hs) as (c' & calls & ->). done.
  - destruct (cache_items_map c !! key) as [v|] eqn:Hk.
    + by rewrite (TryGet_hit c key v Hk).
    + by rewrite (TryGet_miss c key Hk).
  - destruct (cache_items_map c !! key) as [v|] eqn:Hk.
    + by rewrite (Get_hit c key v Hk).
    + rewrite (Get_miss c key Hk). simpl. intros [= <-]. eauto.
  - by rewrite Cached_eq.
  - by rewrite Size_eq.
  - destruct (cache_items_map c !! key) as [v|] eqn:Hk.
    + by rewrite (Remove_present c key v Hk).
    + by rewrite (Remove_absent c key Hk).
  - by rewrite Clear_eq.
Qed.
End from_construction.

(** C1 (as amended).  For a cache constructed with a policy object that
    tracks no keys (the default argument [Policy<Key>{}] is one), after
    every sequence of calls of the public member functions the keys tracked
    by the policy are exactly the keys of the map. *)
Theorem policy_keys_are_map_keys `{Countable K} (V : Type) :
  every_policy (λ P (_ : ICachePolicy K P) (_ : Tracking K P),
    ∀ (max_size : nat) (pops : list (policy_op K))
      (c0 : fixed_sized_cache K V P) (ops : list (op K V)),
      tracked (policy_after (P := P) pops) = ∅ →
      fixed_sized_cache_ctor max_size (policy_after pops) = inr c0 →
      tracked (cache_policy (state_after ops c0)) =
      dom (cache_items_map (state_after ops c0))).
Proof.
  unfold every_policy. split_and!; intros max_size pops c0 ops Hempty Hctor;
    by destruct (constructed_empty_exact max_size pops c0 ops Hempty Hctor)
      as [(_ & _ & Heq & _) _].
Qed.

Lemma policy_keys_are_map_keys_witness :
  tracked (policy_after (K := nat) (P := LRUCachePolicy.t nat) []) = ∅ ∧
  fixed_sized_cache_ctor 2 (policy_after []) =
    inr (mk_cache ∅ new_policy 2
         : fixed_sized_cache nat nat (LRUCachePolicy.t nat)) ∧
  tracked (cache_policy (state_after
      [OpPut 1 10; OpPut 2 20; OpTryGet 1; OpPut 3 30; OpRemove 3; OpClear]
      (mk_cache ∅ new_policy 2
       : fixed_sized_cache nat nat (LRUCachePolicy.t nat))))
  = dom (cache_items_map (state_after
      [OpPut 1 10; OpPut 2 20; OpTryGet 1; OpPut 3 30; OpRemove 3; OpClear]
      (mk_cache ∅ new_policy 2
       : fixed_sized_cache nat nat (LRUCachePolicy.t nat)))).
Proof.
  split; [reflexivity|]. split; [reflexivity|].
  apply (proj2 (proj2 (proj2 (policy_keys_are_map_keys (K := nat) nat)))
           2 []); reflexivity.
Defined.

(** C1 as stated fails when the policy object handed to the constructor
    already tracks a key: a [NoCachePolicy] on which [Insert(0)] was called,
    capacity 1, then [Put(1, 10)].  The policy tracks 0 and 1, the map holds
    the key 1 only. *)
Lemma policy_keys_differ_for_used_policy :
  ∃ c0 : fixed_sized_cache nat nat (NoCachePolicy.t nat),
    fixed_sized_cache_ctor 1 (policy_after [PInsert 0]) = inr c0 ∧
    tracked (cache_policy (state_after [OpPut 1 10] c0)) = {[0; 1]} ∧
    dom (cache_items_map (state_after [OpPut 1 10] c0)) = {[1]} ∧
    tracked (cache_policy (state_after [OpPut 1 10] c0)) ≠
    dom (cache_items_map (state_after [OpPut 1 10] c0)).
Proof.
  eexists. split; [reflexivity|]. split_and!; [by vm_compute..|].
  vm_compute. intros Heq. discriminate Heq.
Qed.

(** C2 (as amended).  For a cache constructed with capacity [max_size] and
    a policy object that tracks no keys, after every sequence of calls
    [Size()] answers a number between 0 and [max_size]; a further [Put]
    leaves at most [max_size] entries, and it takes an entry out only if its
    key had no entry and the map held exactly [max_size] entries. *)
Theorem size_within_capacity `{Countable K} (V : Type) :
  every_policy (λ P (_ : ICachePolicy K P) (_ : Tracking K P),
    ∀ (max_size : nat) (pops : list (policy_op K))
      (c0 : fixed_sized_cache K V P) (ops : list (op K V)),
      tracked (policy_after (P := P) pops) = ∅ →
      fixed_sized_cache_ctor max_size (policy_after pops) = inr c0 →
      0 < max_size ∧
      (∃ n, Size (state_after ops c0) = (inr n, state_after ops c0, []) ∧
            0 ≤ n ≤ max_size) ∧
      ∀ key value,
        size (cache_items_map (Put key value (state_after ops c0)).1.2)
          ≤ max_size ∧
        (removed_entries (state_after ops c0)
           (Put key value (state_after ops c0)).1.2 ≠ ∅ →
         cache_items_map (state_after ops c0) !! key = None ∧
         size (cache_items_map (state_after ops c0)) = max_size)).
Proof.
  unfold every_policy. split_and!; intros max_size pops c0 ops Hempty Hctor;
    destruct (constructed_empty_exact max_size pops c0 ops Hempty Hctor)
      as [Hex Hmax];
    (split_and!;
     [ destruct Hex as (_ & ? & _); lia
     | exists (size (cache_items_map (state_after ops c0)));
       split; [apply Size_eq|destruct Hex as (_ & _ & _ & ?); lia]
     | intros key value; split;
       [ destruct (Put_exact _ key value Hex) as (_ & _ & _ & Hsz);
         pose proof (step_max_cache_size (OpPut key value) (state_after ops c0))
           as Hcap;
         rewrite step_state in Hcap; simpl in Hcap; lia
       | intros Hrem; rewrite <-Hmax;
         by apply (Put_evicts_only_when_full _ key value) ] ]).
Qed.

Lemma size_within_capacity_witness :
  tracked (policy_after (K := nat) (P := FIFOCachePolicy.t nat) []) = ∅ ∧
  fixed_sized_cache_ctor 2 (policy_after []) =
    inr (mk_cache ∅ new_policy 2
         : fixed_sized_cache nat nat (FIFOCachePolicy.t nat)) ∧
  ∃ n, Size (state_after [OpPut 1 10; OpPut 2 20; OpPut 3 30]
               (mk_cache ∅ new_policy 2
                : fixed_sized_cache nat nat (FIFOCachePolicy.t nat))) =
         (inr n,
          state_after [OpPut 1 10; OpPut 2 20; OpPut 3 30]
            (mk_cache ∅ new_policy 2),
          []) ∧
       0 ≤ n ≤ 2.
Proof.
  split; [reflexivity|]. split; [reflexivity|].
  refine (proj1 (proj2 (proj1 (proj2 (size_within_capacity (K := nat) nat))
           2 [] (mk_cache ∅ new_policy 2)
           [OpPut 1 10; OpPut 2 20; OpPut 3 30] _ _))); reflexivity.
Defined.

(** C2 as stated fails when the policy object handed to the constructor
    already tracks a key: an LRU policy on which [Insert(0)] was called,
    capacity 1, then [Put(1, 10)] and [Put(2, 20)].  The second [Put] finds
    the map full, is told to evict the key 0, which has no entry, and adds
    its own: two entries in a cache of capacity 1.  (The policy is only
    asked to [Insert] new keys and for its candidate, the back of its own
    list.) *)
Lemma size_exceeds_capacity_for_used_policy :
  ∃ c0 : fixed_sized_cache nat nat (LRUCachePolicy.t nat),
    fixed_sized_cache_ctor 1 (policy_after [PInsert 0]) = inr c0 ∧
    ReplacementCandidate (cache_policy (state_after [OpPut 1 10] c0)) = inr 0 ∧
    Size (state_after [OpPut 1 10; OpPut 2 20] c0) =
      (inr 2, state_after [OpPut 1 10; OpPut 2 20] c0, []) ∧
    ¬ 2 ≤ max_cache_size (state_after [OpPut 1 10; OpPut 2 20] c0).
Proof.
  eexists. split; [reflexivity|]. split_and!; [by vm_compute..|].
  vm_compute. lia.
Qed.

(** C8.  In each of the four policies, [ReplacementCandidate] of a policy
    object throws [std::runtime_error] exactly when the object tracks no
    keys.  An exception can leave [Put] only from the call of
    [ReplacementCandidate] made for a new key on a full map; in every state
    of a cache that was constructed with a policy tracking no keys the
    capacity is at least 1 and [Put] returns normally, and the only
    exception of any public member function is the
    [std::range_error] of [Get] for a key without entry. *)
Theorem ReplacementCandidate_never_throws_in_Put `{Countable K} (V : Type) :
  every_policy (λ P (_ : ICachePolicy K P) (_ : Tracking K P),
    (∀ pops : list (policy_op K),
       ReplacementCandidate (policy_after (P := P) pops) = inl runtime_error ↔
       tracked (policy_after (P := P) pops) = ∅) ∧
    (∀ (c : fixed_sized_cache K V P) key value e,
       (Put key value c).1.1 = inl e →
       cache_items_map c !! key = None ∧
       max_cache_size c ≤ size (cache_items_map c) ∧
       ReplacementCandidate (cache_policy c) = inl e) ∧
    (∀ c : fixed_sized_cache K V P,
       fresh_reachable c →
       1 ≤ max_cache_size c ∧
       (max_cache_size c ≤ size (cache_items_map c) →
        ∃ evict_key, ReplacementCandidate (cache_policy c) = inr evict_key) ∧
       (∀ key value, ∃ c' calls, Put key value c = (inr tt, c', calls)) ∧
       (∀ (o : op K V) e,
          (step o c).1.1 = inl e →
          e = range_error ∧
          ∃ key, o = OpGet key ∧ cache_items_map c !! key = None))).
Proof.
  unfold every_policy. refine (conj _ (conj _ (conj _ _)));
    (refine (conj _ (conj _ _));
     [ apply candidate_throws_iff_empty
     | apply Put_throw_only_from_candidate
     | intros c Hr; apply fresh_reachable_sound in Hr;
       refine (conj _ (conj _ (conj _ _)));
       [ destruct Hr as (_ & ? & _); lia
       | by apply candidate_exists
       | intros; by apply Put_returns
       | intros; by apply step_throw_only_Get ] ]).
Qed.

Lemma ReplacementCandidate_never_throws_in_Put_witness :
  fresh_reachable (state_after [OpPut 1 10; OpPut 2 20]
               (mk_cache ∅ new_policy 2
                : fixed_sized_cache nat nat (LIFOCachePolicy.t nat))) ∧
  ∃ c' calls,
    Put 3 30 (state_after [OpPut 1 10; OpPut 2 20]
                (mk_cache ∅ new_policy 2
                 : fixed_sized_cache nat nat (LIFOCachePolicy.t nat))) =
    (inr tt, c', calls).
Proof.
  assert (fresh_reachable (state_after [OpPut 1 10; OpPut 2 20]
               (mk_cache ∅ new_policy 2
                : fixed_sized_cache nat nat (LIFOCachePolicy.t nat)))) as Hr.
  { exists 2, [], (mk_cache ∅ new_policy 2), [OpPut 1 10; OpPut 2 20].
    split; [reflexivity|]. split; reflexivity. }
  split; [exact Hr|].
  exact (proj1 (proj2 (proj2 (proj2 (proj2 (proj1 (proj2 (proj2
    (ReplacementCandidate_never_throws_in_Put (K := nat) nat)))))
    _ Hr))) 3 30).
Defined.

Section update_twice.
Context `{Countable K} {V P : Type} `{!ICachePolicy K P}.
Implicit Types (c : fixed_sized_cache K V P) (key : K).

Lemma Put_twice c key (v1 v2 old : V) :
  cache_items_map c !! key = Some old →
  Size (Put key v1 c).1.2 =
    (inr (size (cache_items_map c)), (Put key v1 c).1.2, []) ∧
  Size (Put key v2 (Put key v1 c).1.2).1.2 =
    (inr (size (cache_items_map c)), (Put key v2 (Put key v1 c).1.2).1.2, []) ∧
  (Get key (Put key v2 (Put key v1 c).1.2).1.2).1.1 = inr v2.
Proof.
  intros Hk. rewrite (Put_update c key v1 old Hk). simpl.
  rewrite (Put_update _ key v2 v1) by apply lookup_insert_eq. simpl.
  rewrite !Size_eq. simpl.
  rewrite (map_size_insert_Some key v2) by (by rewrite lookup_insert_eq).
  rewrite (map_size_insert_Some key v1) by (by eexists).
  split_and!; [done..|].
  by rewrite (Get_hit _ key v2) by apply lookup_insert_eq.
Qed.
End update_twice.

Section lru_update.
Context `{Countable K} {V : Type}.
Implicit Types (c : fixed_sized_cache K V (LRUCachePolicy.t K)) (key : K).

(** After [Touch(key)] the back of the queue is another key, as soon as
    the policy tracks one. *)
Lemma LRU_Touch_candidate (p : LRUCachePolicy.t K) key other :
  policy_ok p → key ∈ tracked p → other ∈ tracked p → other ≠ key →
  ∃ candidate,
    ReplacementCandidate (Touch key p) = inr candidate ∧ candidate ≠ key.
Proof.
  destruct p as [q s]. simpl. intros [Hnd ->] Hkey Hother Hne.
  unfold LRUCachePolicy.Touch, LRUCachePolicy.ReplacementCandidate. simpl.
  rewrite decide_True by done. simpl. unfold list_splice_front.
  rewrite elem_of_list_to_set in Hother.
  assert (other ∈ list_erase key q) as Hin
    by (by apply elem_of_list_erase).
  rewrite last_cons.
  destruct (last (list_erase key q)) as [x|] eqn:Hlast.
  - exists x. split; [done|].
    apply last_Some_elem_of, elem_of_list_erase in Hlast; [|done]. tauto.
  - apply last_None in Hlast. rewrite Hlast in Hin. by apply elem_of_nil in Hin.
Qed.

Lemma LRU_update_not_candidate c key other (v1 v2 old : V) :
  cache_sound c →
  cache_items_map c !! key = Some old →
  other ≠ key → is_Some (cache_items_map c !! other) →
  (∃ candidate,
     ReplacementCandidate (cache_policy (Put key v1 c).1.2) = inr candidate ∧
     candidate ≠ key) ∧
  (∃ candidate,
     ReplacementCandidate
       (cache_policy (Put key v2 (Put key v1 c).1.2).1.2) = inr candidate ∧
     candidate ≠ key).
Proof.
  intros Hs Hk Hne Hother.
  assert (∀ c' v old',
    cache_sound c' → cache_items_map c' !! key = Some old' →
    is_Some (cache_items_map c' !! other) →
    ∃ candidate,
      ReplacementCandidate (cache_policy (Put key v c').1.2) = inr candidate ∧
      candidate ≠ key) as Hone.
  { intros c' v old' (Hok & _ & Hsub) Hk' Ho'.
    rewrite (Put_update c' key v old' Hk'). simpl.
    apply (LRU_Touch_candidate _ key other); [done| | |done].
    - apply Hsub, elem_of_dom. by eexists.
    - by apply Hsub, elem_of_dom. }
  split; [by eapply Hone|].
  eapply (Hone _ v2 v1).
  - by apply Put_sound.
  - rewrite (Put_update c key v1 old Hk). simpl. apply lookup_insert_eq.
  - rewrite (Put_update c key v1 old Hk). simpl.
    by rewrite lookup_insert_ne.
Qed.
End lru_update.

(** C7.  For a key that has an entry, [Put(key, v1)] followed by
    [Put(key, v2)] leaves the answer of [Size()] as it was before both, and
    [Get(key)] then returns [v2].  With the LRU policy, in every state of a
    cache that was constructed with a policy tracking no keys, after each of
    the two updates the replacement
    candidate is a key other than [key] whenever another key has an entry. *)
Theorem update_in_place `{Countable K} (V : Type) :
  every_policy (λ P (_ : ICachePolicy K P) (_ : Tracking K P),
    ∀ (c : fixed_sized_cache K V P) key (v1 v2 old : V),
      cache_items_map c !! key = Some old →
      Size (Put key v1 c).1.2 =
        (inr (size (cache_items_map c)), (Put key v1 c).1.2, []) ∧
      Size (Put key v2 (Put key v1 c).1.2).1.2 =
        (inr (size (cache_items_map c)),
         (Put key v2 (Put key v1 c).1.2).1.2, []) ∧
      (Get key (Put key v2 (Put key v1 c).1.2).1.2).1.1 = inr v2) ∧
  (∀ (c : fixed_sized_cache K V (LRUCachePolicy.t K)) key other
     (v1 v2 old : V),
     fresh_reachable c →
     cache_items_map c !! key = Some old →
     other ≠ key → is_Some (cache_items_map c !! other) →
     (∃ candidate,
        ReplacementCandidate (cache_policy (Put key v1 c).1.2)
          = inr candidate ∧
        candidate ≠ key) ∧
     (∃ candidate,
        ReplacementCandidate
          (cache_policy (Put key v2 (Put key v1 c).1.2).1.2) = inr candidate ∧
        candidate ≠ key)).
Proof.
  split.
  - unfold every_policy.
    refine (conj _ (conj _ (conj _ _))); intros; by eapply Put_twice.
  - intros c key other v1 v2 old Hr. apply LRU_update_not_candidate.
    by apply fresh_reachable_sound.
Qed.

Lemma update_in_place_witness :
  (fresh_reachable (state_after [OpPut 1 10; OpPut 2 20]
                (mk_cache ∅ new_policy 2
                 : fixed_sized_cache nat nat (LRUCachePolicy.t nat))) ∧
   cache_items_map (state_after [OpPut 1 10; OpPut 2 20]
                      (mk_cache ∅ new_policy 2
                       : fixed_sized_cache nat nat (LRUCachePolicy.t nat)))
     !! 1 = Some 10 ∧
   2 ≠ 1 ∧
   is_Some (cache_items_map (state_after [OpPut 1 10; OpPut 2 20]
                      (mk_cache ∅ new_policy 2
                       : fixed_sized_cache nat nat (LRUCachePolicy.t nat)))
     !! 2)) ∧
  (Get 1 (Put 1 12 (Put 1 11 (state_after [OpPut 1 10; OpPut 2 20]
                      (mk_cache ∅ new_policy 2
                       : fixed_sized_cache nat nat (LRUCachePolicy.t nat)))
                   ).1.2).1.2).1.1 = inr 12 ∧
  ∃ candidate,
    ReplacementCandidate
      (cache_policy (Put 1 12 (Put 1 11 (state_after [OpPut 1 10; OpPut 2 20]
                      (mk_cache ∅ new_policy 2
                       : fixed_sized_cache nat nat (LRUCachePolicy.t nat)))
                   ).1.2).1.2) = inr candidate ∧
    candidate ≠ 1.
Proof.
  assert (fresh_reachable (state_after [OpPut 1 10; OpPut 2 20]
               (mk_cache ∅ new_policy 2
                : fixed_sized_cache nat nat (LRUCachePolicy.t nat)))) as Hr.
  { exists 2, [], (mk_cache ∅ new_policy 2), [OpPut 1 10; OpPut 2 20].
    split; [reflexivity|]. split; reflexivity. }
  split.
  { split; [exact Hr|]. split; [reflexivity|]. split; [lia|].
    exists 20. reflexivity. }
  split.
  - refine (proj2 (proj2 (proj2 (proj2 (proj2 (proj1
      (update_in_place (K := nat) nat)))) _ 1 11 12 10 _))). reflexivity.
  - refine (proj2 (proj2 (update_in_place (K := nat) nat) _ 1 2 11 12 10
      Hr _ _ _)); [reflexivity|lia|exists 20; reflexivity].
Defined.

(** * Scenarios *)

Section step_equations.
Context `{Countable K} {V P : Type} `{!ICachePolicy K P}.
Implicit Types (c : fixed_sized_cache K V P) (key : K) (value : V).

Lemma step_Put_insert c key value :
  cache_items_map c !! key = None →
  size (cache_items_map c) < max_cache_size c →
  step (OpPut key value) c =
    (inr AUnit,
     mk_cache (<[key := value]> (cache_items_map c))
       (Insert key (cache_policy c)) (max_cache_size c),
     []).
Proof.
  intros Hk Hsz. unfold step, mbind, M_bind, bind.
  by rewrite (Put_insert c key value Hk Hsz).
Qed.

Lemma step_TryGet_hit c key value :
  cache_items_map c !! key = Some value →
  step (OpTryGet key) c =
    (inr (ATryGet (Some (key, value)) true),
     mk_cache (cache_items_map c) (Touch key (cache_policy c))
       (max_cache_size c),
     []).
Proof.
  intros Hk. unfold step, mbind, M_bind, bind.
  by rewrite (TryGet_hit c key value Hk).
Qed.

Lemma Cached_present c key value :
  cache_items_map c !! key = Some value → Cached key c = (inr true, c, []).
Proof. intros Hk. rewrite Cached_eq, bool_decide_eq_true_2; eauto. Qed.

Lemma Cached_absent c key :
  cache_items_map c !! key = None → Cached key c = (inr false, c, []).
Proof.
  intros Hk. rewrite Cached_eq, bool_decide_eq_false_2; [done|].
  rewrite Hk. by intros [? ?].
Qed.

Lemma calls_during_snoc (ops : list (op K V)) o c :
  calls_during (ops ++ [o]) c =
  calls_during ops c ++ (step o (state_after ops c)).2.
Proof.
  unfold calls_during at 1. rewrite run_app. simpl.
  unfold calls_during at 2. simpl.
  destruct (step o _) as [[??]?]. simpl. by rewrite app_nil_r.
Qed.

Lemma run_cons (o : op K V) ops c :
  run (o :: ops) c =
    (((step o c).1.1 :: (run ops (step o c).1.2).1.1),
     (run ops (step o c).1.2).1.2,
     (step o c).2 ++ (run ops (step o c).1.2).2).
Proof.
  simpl. destruct (step o c) as [[r c1] calls1]. simpl.
  by destruct (run ops c1) as [[rs c2] calls2].
Qed.
End step_equations.

Ltac proj_simpl :=
  cbn [fst snd cache_items_map cache_policy max_cache_size app].

Section lru_scenario.
Context `{Countable K} {V : Type}.
Implicit Types (A B C D key : K) (vA vB vC vD : V) (q : list K) (s : gset K).

Lemma LRU_new_policy :
  new_policy (P := LRUCachePolicy.t K) = LRUCachePolicy.mk [] ∅.
Proof. done. Qed.

Lemma LRU_Insert_fresh key q s :
  key ∉ s →
  Insert key (LRUCachePolicy.mk q s) =
  LRUCachePolicy.mk (key :: q) ({[key]} ∪ s).
Proof.
  intros Hk. simpl. unfold LRUCachePolicy.Insert. simpl.
  by rewrite decide_False.
Qed.

Lemma LRU_Touch_tracked key q s :
  key ∈ s →
  Touch key (LRUCachePolicy.mk q s) =
  LRUCachePolicy.mk (key :: list_erase key q) s.
Proof.
  intros Hk. simpl. unfold LRUCachePolicy.Touch. simpl.
  by rewrite decide_True.
Qed.

Lemma LRU_Erase_tracked key q s :
  key ∈ s →
  Erase key (LRUCachePolicy.mk q s) =
  LRUCachePolicy.mk (list_erase key q) (s ∖ {[key]}).
Proof.
  intros Hk. simpl. unfold LRUCachePolicy.Erase. simpl.
  by rewrite decide_True.
Qed.

Lemma LRU_three_then_touch A B C vA vB vC :
  NoDup [A; B; C] →
  run [OpPut A vA; OpPut B vB; OpPut C vC; OpTryGet A]
      (mk_cache ∅ (new_policy (P := LRUCachePolicy.t K)) 3) =
    ([inr AUnit; inr AUnit; inr AUnit;
      inr (ATryGet (Some (A, vA)) true)],
     mk_cache (<[C := vC]> (<[B := vB]> (<[A := vA]> ∅)))
       (LRUCachePolicy.mk [A; C; B] ({[C]} ∪ ({[B]} ∪ ({[A]} ∪ ∅)))) 3,
     []).
Proof.
  intros Hnd.
  assert (A ≠ B ∧ A ≠ C ∧ B ≠ C) as (HAB & HAC & HBC).
  { rewrite !NoDup_cons, !not_elem_of_cons in Hnd. tauto. }
  rewrite LRU_new_policy.
  rewrite run_cons, step_Put_insert; proj_simpl;
    [|done|rewrite map_size_empty; lia].
  rewrite LRU_Insert_fresh by set_solver.
  rewrite run_cons, step_Put_insert; proj_simpl.
  2: by rewrite lookup_insert_ne.
  2: rewrite map_size_insert_None, map_size_empty by done; lia.
  rewrite LRU_Insert_fresh by set_solver.
  rewrite run_cons, step_Put_insert; proj_simpl.
  2: by rewrite !lookup_insert_ne.
  2: { rewrite !map_size_insert_None, map_size_empty;
         [lia|done|by rewrite lookup_insert_ne]. }
  rewrite LRU_Insert_fresh by set_solver.
  rewrite run_cons, (step_TryGet_hit _ A vA); proj_simpl.
  2: { rewrite (lookup_insert_ne _ C A), (lookup_insert_ne _ B A) by done.
       apply lookup_insert_eq. }
  rewrite LRU_Touch_tracked by set_solver. simpl.
  rewrite !decide_False by done. rewrite decide_True by done.
  done.
Qed.

Lemma LRU_put_fourth A B C D vA vB vC vD :
  NoDup [A; B; C; D] →
  Put D vD
    (mk_cache (<[C := vC]> (<[B := vB]> (<[A := vA]> ∅)))
       (LRUCachePolicy.mk [A; C; B] ({[C]} ∪ ({[B]} ∪ ({[A]} ∪ ∅)))) 3) =
    (inr tt,
     mk_cache
       (<[D := vD]> (delete B (<[C := vC]> (<[B := vB]> (<[A := vA]> ∅)))))
       (LRUCachePolicy.mk [D; A; C]
          ({[D]} ∪ ({[C]} ∪ ({[B]} ∪ ({[A]} ∪ ∅))) ∖ {[B]})) 3,
     [(B, vB)]).
Proof.
  intros Hnd.
  assert (A ≠ B ∧ A ≠ C ∧ A ≠ D ∧ B ≠ C ∧ B ≠ D ∧ C ≠ D)
    as (HAB & HAC & HAD & HBC & HBD & HCD).
  { rewrite !NoDup_cons, !not_elem_of_cons in Hnd. tauto. }
  rewrite (Put_evict _ D vD B vB); proj_simpl.
  - rewrite LRU_Erase_tracked by set_solver.
    rewrite LRU_Insert_fresh by set_solver. simpl.
    rewrite !decide_False by done. by rewrite decide_True.
  - by rewrite !lookup_insert_ne.
  - rewrite !map_size_insert_None, map_size_empty;
      [lia|done|by rewrite lookup_insert_ne|by rewrite !lookup_insert_ne].
  - done.
  - rewrite lookup_insert_ne by done. apply lookup_insert_eq.
Qed.
End lru_scenario.

(** C5.  LRU policy, capacity 3, distinct keys A, B, C, D:
    [Put(A)], [Put(B)], [Put(C)], [TryGet(A)] (a hit), [Put(D)].  The first
    four calls make no callback call; [Put(D)] takes out the entry of B and
    no other, with one callback call for (B, vB); afterwards A, C and D are
    cached and B is not. *)
Theorem LRU_evicts_least_recently_used `{Countable K} {V : Type}
    (A B C D : K) (vA vB vC vD : V) :
  NoDup [A; B; C; D] →
  ∃ c0 : fixed_sized_cache K V (LRUCachePolicy.t K),
    fixed_sized_cache_ctor 3 new_policy = inr c0 ∧
    (run [OpPut A vA; OpPut B vB; OpPut C vC; OpTryGet A] c0).1.1 =
      [inr AUnit; inr AUnit; inr AUnit; inr (ATryGet (Some (A, vA)) true)] ∧
    calls_during [OpPut A vA; OpPut B vB; OpPut C vC; OpTryGet A] c0 = [] ∧
    (Put D vD
       (state_after [OpPut A vA; OpPut B vB; OpPut C vC; OpTryGet A] c0)).2
      = [(B, vB)] ∧
    removed_entries
      (state_after [OpPut A vA; OpPut B vB; OpPut C vC; OpTryGet A] c0)
      (state_after
         [OpPut A vA; OpPut B vB; OpPut C vC; OpTryGet A; OpPut D vD] c0)
      = {[B := vB]} ∧
    calls_during
      [OpPut A vA; OpPut B vB; OpPut C vC; OpTryGet A; OpPut D vD] c0
      = [(B, vB)] ∧
    ∀ final,
      final = state_after
        [OpPut A vA; OpPut B vB; OpPut C vC; OpTryGet A; OpPut D vD] c0 →
      Cached A final = (inr true, final, []) ∧
      Cached C final = (inr true, final, []) ∧
      Cached D final = (inr true, final, []) ∧
      Cached B final = (inr false, final, []) ∧
      ReplacementCandidate (cache_policy final) = inr C.
Proof.
  intros Hnd.
  assert (A ≠ B ∧ A ≠ C ∧ A ≠ D ∧ B ≠ C ∧ B ≠ D ∧ C ≠ D)
    as (HAB & HAC & HAD & HBC & HBD & HCD).
  { rewrite !NoDup_cons, !not_elem_of_cons in Hnd. tauto. }
  assert (NoDup [A; B; C]) as Hnd3.
  { rewrite !NoDup_cons, !not_elem_of_cons in *. tauto. }
  eexists. split; [reflexivity|].
  pose proof (LRU_three_then_touch A B C vA vB vC Hnd3) as Hrun.
  pose proof (LRU_put_fourth A B C D vA vB vC vD Hnd) as HPut.
  change [OpPut A vA; OpPut B vB; OpPut C vC; OpTryGet A; OpPut D vD]
    with ([OpPut A vA; OpPut B vB; OpPut C vC; OpTryGet A] ++ [OpPut D vD]).
  rewrite calls_during_snoc, state_after_snoc, step_calls, step_state.
  unfold calls_during, state_after. rewrite Hrun. proj_simpl.
  cbn [member_outcome fst snd]. rewrite HPut. proj_simpl.
  split_and!; [done..| |done|].
  - apply removed_one; proj_simpl.
    + rewrite lookup_insert_ne by done. apply lookup_insert_eq.
    + rewrite lookup_insert_ne by done. apply lookup_delete_eq.
    + intros k' Hne Hs. rewrite lookup_insert. case_decide; [done|].
      by rewrite lookup_delete_ne.
  - intros final ->. split_and!.
    + apply (Cached_present _ A vA). proj_simpl.
      rewrite (lookup_insert_ne _ D A), (lookup_delete_ne _ B A),
        (lookup_insert_ne _ C A), (lookup_insert_ne _ B A) by done.
      apply lookup_insert_eq.
    + apply (Cached_present _ C vC). proj_simpl.
      rewrite (lookup_insert_ne _ D C), (lookup_delete_ne _ B C) by done.
      apply lookup_insert_eq.
    + apply (Cached_present _ D vD). proj_simpl. apply lookup_insert_eq.
    + apply Cached_absent. proj_simpl.
      rewrite (lookup_insert_ne _ D B) by done. apply lookup_delete_eq.
    + done.
Qed.

Lemma LRU_evicts_least_recently_used_witness :
  NoDup [1; 2; 3; 4] ∧
  calls_during
    [OpPut 1 10; OpPut 2 20; OpPut 3 30; OpTryGet 1; OpPut 4 40]
    (mk_cache ∅ new_policy 3
     : fixed_sized_cache nat nat (LRUCachePolicy.t nat))
  = [(2, 20)].
Proof.
  assert (NoDup [1; 2; 3; 4]) as Hnd
    by (apply (bool_decide_unpack _); by vm_compute).
  split; [exact Hnd|].
  destruct (LRU_evicts_least_recently_used (V := nat) 1 2 3 4 10 20 30 40 Hnd)
    as (c0 & Hc0 & _ & _ & _ & _ & Hcalls & _).
  injection Hc0 as <-. exact Hcalls.
Defined.

Section fifo_scenario.
Context `{Countable K} {V : Type}.
Implicit Types (A B C D key : K) (vA vB vC vD : V) (q : list K) (s : gset K).
Implicit Types (c : fixed_sized_cache K V (FIFOCachePolicy.t K)).

Lemma FIFO_new_policy :
  new_policy (P := FIFOCachePolicy.t K) = FIFOCachePolicy.mk [] ∅.
Proof. done. Qed.

Lemma FIFO_Insert_fresh key q s :
  key ∉ s →
  Insert key (FIFOCachePolicy.mk q s) =
  FIFOCachePolicy.mk (key :: q) ({[key]} ∪ s).
Proof.
  intros Hk. simpl. unfold FIFOCachePolicy.Insert. simpl.
  by rewrite decide_False.
Qed.

Lemma FIFO_Erase_tracked key q s :
  key ∈ s →
  Erase key (FIFOCachePolicy.mk q s) =
  FIFOCachePolicy.mk (list_erase key q) (s ∖ {[key]}).
Proof.
  intros Hk. simpl. unfold FIFOCachePolicy.Erase. simpl.
  by rewrite decide_True.
Qed.

(** [Touch] is empty in the FIFO policy: a lookup, hit or miss, leaves the
    whole object as it was. *)
Lemma FIFO_TryGet_state c key :
  (step (OpTryGet key) c).1.2 = c ∧ (step (OpTryGet key) c).2 = [].
Proof.
  rewrite step_state, step_calls. simpl.
  destruct (cache_items_map c !! key) as [v|] eqn:Hk.
  - rewrite (TryGet_hit c key v Hk). simpl. by destruct c.
  - by rewrite (TryGet_miss c key Hk).
Qed.

Lemma FIFO_TryGets (keys : list K) c :
  state_after (TryGets keys) c = c ∧ calls_during (TryGets keys) c = [].
Proof.
  unfold TryGets.
  induction keys as [|key keys IH] using rev_ind; [done|].
  rewrite fmap_app. simpl.
  rewrite state_after_snoc, calls_during_snoc.
  destruct IH as [-> ->].
  by destruct (FIFO_TryGet_state c key) as [-> ->].
Qed.

Lemma FIFO_Put_then_TryGets c key value (keys : list K) (ops : list (op K V)) :
  cache_items_map c !! key = None →
  size (cache_items_map c) < max_cache_size c →
  state_after (OpPut key value :: TryGets keys ++ ops) c =
    state_after ops
      (mk_cache (<[key := value]> (cache_items_map c))
         (Insert key (cache_policy c)) (max_cache_size c)) ∧
  calls_during (OpPut key value :: TryGets keys ++ ops) c =
    calls_during ops
      (mk_cache (<[key := value]> (cache_items_map c))
         (Insert key (cache_policy c)) (max_cache_size c)).
Proof.
  intros Hk Hsz. unfold state_after, calls_during.
  rewrite run_cons, (step_Put_insert c key value Hk Hsz). proj_simpl.
  rewrite run_app. proj_simpl.
  by destruct (FIFO_TryGets keys
    (mk_cache (<[key := value]> (cache_items_map c))
       (Insert key (cache_policy c)) (max_cache_size c))) as [-> ->].
Qed.

Lemma FIFO_three A B C vA vB vC (g0 g1 g2 g3 : list K) :
  NoDup [A; B; C] →
  state_after (puts_with_lookups A B C vA vB vC g0 g1 g2 g3)
    (mk_cache ∅ (new_policy (P := FIFOCachePolicy.t K)) 3) =
    mk_cache (<[C := vC]> (<[B := vB]> (<[A := vA]> ∅)))
      (FIFOCachePolicy.mk [C; B; A] ({[C]} ∪ ({[B]} ∪ ({[A]} ∪ ∅)))) 3 ∧
  calls_during (puts_with_lookups A B C vA vB vC g0 g1 g2 g3)
    (mk_cache ∅ (new_policy (P := FIFOCachePolicy.t K)) 3) = [].
Proof.
  intros Hnd.
  assert (A ≠ B ∧ A ≠ C ∧ B ≠ C) as (HAB & HAC & HBC).
  { rewrite !NoDup_cons, !not_elem_of_cons in Hnd. tauto. }
  unfold puts_with_lookups. rewrite FIFO_new_policy.
  unfold state_after at 1, calls_during at 1. rewrite run_app. proj_simpl.
  destruct (FIFO_TryGets g0 (mk_cache ∅ (FIFOCachePolicy.mk [] ∅) 3))
    as [-> ->]. proj_simpl.
  edestruct (FIFO_Put_then_TryGets (mk_cache ∅ (FIFOCachePolicy.mk [] ∅) 3)
    A vA g1) as [-> ->]; proj_simpl; [done|rewrite map_size_empty; lia|].
  rewrite FIFO_Insert_fresh by set_solver.
  edestruct (FIFO_Put_then_TryGets
    (mk_cache (<[A := vA]> ∅) (FIFOCachePolicy.mk [A] ({[A]} ∪ ∅)) 3)
    B vB g2) as [-> ->]; proj_simpl.
  { by rewrite lookup_insert_ne. }
  { rewrite map_size_insert_None, map_size_empty by done. lia. }
  rewrite FIFO_Insert_fresh by set_solver.
  rewrite <-(app_nil_r (TryGets g3)).
  edestruct (FIFO_Put_then_TryGets
    (mk_cache (<[B := vB]> (<[A := vA]> ∅))
       (FIFOCachePolicy.mk [B; A] ({[B]} ∪ ({[A]} ∪ ∅))) 3)
    C vC g3 []) as [-> ->]; proj_simpl.
  { by rewrite !lookup_insert_ne. }
  { rewrite !map_size_insert_None, map_size_empty;
      [lia|done|by rewrite lookup_insert_ne]. }
  rewrite FIFO_Insert_fresh by set_solver. done.
Qed.

Lemma FIFO_put_fourth A B C D vA vB vC vD :
  NoDup [A; B; C; D] →
  Put D vD
    (mk_cache (<[C := vC]> (<[B := vB]> (<[A := vA]> ∅)))
       (FIFOCachePolicy.mk [C; B; A] ({[C]} ∪ ({[B]} ∪ ({[A]} ∪ ∅)))) 3) =
    (inr tt,
     mk_cache
       (<[D := vD]> (delete A (<[C := vC]> (<[B := vB]> (<[A := vA]> ∅)))))
       (FIFOCachePolicy.mk [D; C; B]
          ({[D]} ∪ ({[C]} ∪ ({[B]} ∪ ({[A]} ∪ ∅))) ∖ {[A]})) 3,
     [(A, vA)]).
Proof.
  intros Hnd.
  assert (A ≠ B ∧ A ≠ C ∧ A ≠ D ∧ B ≠ C ∧ B ≠ D ∧ C ≠ D)
    as (HAB & HAC & HAD & HBC & HBD & HCD).
  { rewrite !NoDup_cons, !not_elem_of_cons in Hnd. tauto. }
  rewrite (Put_evict _ D vD A vA); proj_simpl.
  - rewrite FIFO_Erase_tracked by set_solver.
    rewrite FIFO_Insert_fresh by set_solver. simpl.
    rewrite !decide_False by done. by rewrite decide_True.
  - by rewrite !lookup_insert_ne.
  - rewrite !map_size_insert_None, map_size_empty;
      [lia|done|by rewrite lookup_insert_ne|by rewrite !lookup_insert_ne].
  - done.
  - rewrite (lookup_insert_ne _ C A), (lookup_insert_ne _ B A) by done.
    apply lookup_insert_eq.
Qed.
End fifo_scenario.

(** C6.  FIFO policy, capacity 3, distinct keys A, B, C, D put in this
    order, with any [TryGet] calls (hits or misses, of any keys) before,
    between and after the first three insertions.  Nothing is evicted before
    [Put(D)]; [Put(D)] takes out the entry of A and no other, with one
    callback call for (A, vA); afterwards B, C and D are cached and A is
    not. *)
Theorem FIFO_evicts_first_inserted `{Countable K} {V : Type}
    (A B C D : K) (vA vB vC vD : V) (g0 g1 g2 g3 : list K) :
  NoDup [A; B; C; D] →
  ∃ c0 : fixed_sized_cache K V (FIFOCachePolicy.t K),
    fixed_sized_cache_ctor 3 new_policy = inr c0 ∧
    calls_during (puts_with_lookups A B C vA vB vC g0 g1 g2 g3) c0 = [] ∧
    (Put D vD
       (state_after (puts_with_lookups A B C vA vB vC g0 g1 g2 g3) c0)).2
      = [(A, vA)] ∧
    removed_entries
      (state_after (puts_with_lookups A B C vA vB vC g0 g1 g2 g3) c0)
      (state_after
         (puts_with_lookups A B C vA vB vC g0 g1 g2 g3 ++ [OpPut D vD]) c0)
      = {[A := vA]} ∧
    calls_during
      (puts_with_lookups A B C vA vB vC g0 g1 g2 g3 ++ [OpPut D vD]) c0
      = [(A, vA)] ∧
    ∀ final,
      final = state_after
        (puts_with_lookups A B C vA vB vC g0 g1 g2 g3 ++ [OpPut D vD]) c0 →
      Cached B final = (inr true, final, []) ∧
      Cached C final = (inr true, final, []) ∧
      Cached D final = (inr true, final, []) ∧
      Cached A final = (inr false, final, []).
Proof.
  intros Hnd.
  assert (A ≠ B ∧ A ≠ C ∧ A ≠ D ∧ B ≠ C ∧ B ≠ D ∧ C ≠ D)
    as (HAB & HAC & HAD & HBC & HBD & HCD).
  { rewrite !NoDup_cons, !not_elem_of_cons in Hnd. tauto. }
  assert (NoDup [A; B; C]) as Hnd3.
  { rewrite !NoDup_cons, !not_elem_of_cons in *. tauto. }
  eexists. split; [reflexivity|].
  destruct (FIFO_three A B C vA vB vC g0 g1 g2 g3 Hnd3) as [Hstate Hcalls].
  pose proof (FIFO_put_fourth A B C D vA vB vC vD Hnd) as HPut.
  rewrite calls_during_snoc, state_after_snoc, step_calls, step_state.
  rewrite Hstate, Hcalls.
  cbn [member_outcome fst snd]. rewrite HPut. proj_simpl.
  split_and!; [done..| |done|].
  - apply removed_one; proj_simpl.
    + rewrite (lookup_insert_ne _ C A), (lookup_insert_ne _ B A) by done.
      apply lookup_insert_eq.
    + rewrite lookup_insert_ne by done. apply lookup_delete_eq.
    + intros k' Hne Hs. rewrite lookup_insert. case_decide; [done|].
      by rewrite lookup_delete_ne.
  - intros final ->. split_and!.
    + apply (Cached_present _ B vB). proj_simpl.
      rewrite (lookup_insert_ne _ D B), (lookup_delete_ne _ A B),
        (lookup_insert_ne _ C B) by done.
      apply lookup_insert_eq.
    + apply (Cached_present _ C vC). proj_simpl.
      rewrite (lookup_insert_ne _ D C), (lookup_delete_ne _ A C) by done.
      apply lookup_insert_eq.
    + apply (Cached_present _ D vD). proj_simpl. apply lookup_insert_eq.
    + apply Cached_absent. proj_simpl.
      rewrite (lookup_insert_ne _ D A) by done. apply lookup_delete_eq.
Qed.

Lemma FIFO_evicts_first_inserted_witness :
  NoDup [1; 2; 3; 4] ∧
  calls_during
    (puts_with_lookups 1 2 3 10 20 30 [1] [1; 1] [2; 1] [3; 1; 9]
       ++ [OpPut 4 40])
    (mk_cache ∅ new_policy 3
     : fixed_sized_cache nat nat (FIFOCachePolicy.t nat))
  = [(1, 10)].
Proof.
  assert (NoDup [1; 2; 3; 4]) as Hnd
    by (apply (bool_decide_unpack _); by vm_compute).
  split; [exact Hnd|].
  destruct (FIFO_evicts_first_inserted (V := nat) 1 2 3 4 10 20 30 40
              [1] [1; 1] [2; 1] [3; 1; 9] Hnd)
    as (c0 & Hc0 & _ & _ & _ & Hcalls & _).
  injection Hc0 as <-. exact Hcalls.
Defined.

(** * Further properties of the members *)

(** X1.  The constructor throws exactly for capacity 0, and then
    [std::invalid_argument]; otherwise the new cache has the given capacity
    and policy, [Size] answers 0, no key is cached and [Get] of any key
    throws [std::range_error]. *)
Theorem ctor_throws_iff_zero `{Countable K} {V P : Type} `{!ICachePolicy K P}
    (max_size : nat) (policy : P) (key : K) :
  match fixed_sized_cache_ctor (V := V) max_size policy with
  | inl e => e = invalid_argument ∧ max_size = 0
  | inr c0 =>
      max_size ≠ 0 ∧
      max_cache_size c0 = max_size ∧
      cache_policy c0 = policy ∧
      Size c0 = (inr 0, c0, []) ∧
      Cached key c0 = (inr false, c0, []) ∧
      TryGet key c0 = (inr (None, false), c0, []) ∧
      Get key c0 = (inl range_error, c0, [])
  end.
Proof.
  unfold fixed_sized_cache_ctor. case_decide; [done|].
  split_and!; done.
Qed.

Section remove.
Context `{Countable K} {V P : Type} `{!ICachePolicy K P}.
Implicit Types (c : fixed_sized_cache K V P) (key : K) (value : V).

Lemma Remove_state c key :
  cache_items_map (Remove key c).1.2 = delete key (cache_items_map c) ∧
  max_cache_size (Remove key c).1.2 = max_cache_size c.
Proof.
  destruct (cache_items_map c !! key) as [v|] eqn:Hk.
  - by rewrite (Remove_present c key v Hk).
  - rewrite (Remove_absent c key Hk). by rewrite delete_id.
Qed.
End remove.

(** X2.  [Remove] of a key without entry returns false, leaves the object
    as it is and makes no callback call.  [Remove] of a key with an entry
    returns true, makes one callback call with the key and its value, erases
    the key from the policy and takes exactly this entry out: [Size]
    answers one less and every other entry stays. *)
Theorem Remove_absent_or_present `{Countable K} {V P : Type}
    `{!ICachePolicy K P} (c : fixed_sized_cache K V P) (key : K) :
  match cache_items_map c !! key with
  | None => Remove key c = (inr false, c, [])
  | Some value =>
      Remove key c =
        (inr true,
         mk_cache (delete key (cache_items_map c))
           (Erase key (cache_policy c)) (max_cache_size c),
         [(key, value)]) ∧
      Size (Remove key c).1.2 =
        (inr (pred (size (cache_items_map c))), (Remove key c).1.2, []) ∧
      0 < size (cache_items_map c) ∧
      Cached key (Remove key c).1.2 = (inr false, (Remove key c).1.2, []) ∧
      removed_entries c (Remove key c).1.2 = {[key := value]}
  end.
Proof.
  destruct (cache_items_map c !! key) as [value|] eqn:Hk.
  - rewrite (Remove_present c key value Hk). simpl. split_and!.
    + done.
    + rewrite Size_eq. simpl. by rewrite map_size_delete_Some by eauto.
    + assert (size (cache_items_map c) ≠ 0); [|lia].
      apply map_size_non_empty_iff. intros Hm.
      by rewrite Hm, lookup_empty in Hk.
    + apply Cached_absent. simpl. apply lookup_delete_eq.
    + apply removed_one; simpl; [done|apply lookup_delete_eq|].
      intros k' Hne Hs. by rewrite lookup_delete_ne.
  - by apply Remove_absent.
Qed.

(** X3.  Whatever the state, after [Remove(key)] the key is gone: a second
    [Remove(key)] returns false and changes nothing, [Cached(key)] answers
    false, [TryGet(key)] misses and [Get(key)] throws [std::range_error]. *)
Theorem Remove_then_gone `{Countable K} {V P : Type}
    `{!ICachePolicy K P} (c : fixed_sized_cache K V P) (key : K) :
  Remove key (Remove key c).1.2 = (inr false, (Remove key c).1.2, []) ∧
  Cached key (Remove key c).1.2 = (inr false, (Remove key c).1.2, []) ∧
  TryGet key (Remove key c).1.2 = (inr (None, false), (Remove key c).1.2, []) ∧
  Get key (Remove key c).1.2 = (inl range_error, (Remove key c).1.2, []).
Proof.
  assert (cache_items_map (Remove key c).1.2 !! key = None) as Hgone.
  { rewrite (proj1 (Remove_state c key)). apply lookup_delete_eq. }
  split_and!.
  - by apply Remove_absent.
  - by apply Cached_absent.
  - by apply TryGet_miss.
  - by apply Get_miss.
Qed.

Section put_more.
Context `{Countable K} {V P : Type}.
Context `{!ICachePolicy K P, !Tracking K P, !PolicyLaws K P}.
Implicit Types (c : fixed_sized_cache K V P) (key : K) (value : V).

Lemma Put_stores c key value :
  (Put key value c).1.1 = inr tt →
  cache_items_map (Put key value c).1.2 !! key = Some value.
Proof.
  destruct (Put_cases c key value) as
    [old Hk ->| Hk ? ->|ek ev Hk ? ? Hek ->|ek Hk ? Hc Hek ->|e ? Hfull Hc ->];
    simpl; [by rewrite lookup_insert_eq..|done].
Qed.

Lemma Put_then_lookups c key value :
  cache_sound c →
  (Put key value c).1.1 = inr tt ∧
  (Get key (Put key value c).1.2).1.1 = inr value ∧
  (TryGet key (Put key value c).1.2).1.1 = inr (Some (key, value), true) ∧
  Cached key (Put key value c).1.2 = (inr true, (Put key value c).1.2, []).
Proof.
  intros Hs.
  assert ((Put key value c).1.1 = inr tt) as Hret.
  { by destruct (Put_returns c key value Hs) as (c' & calls & ->). }
  pose proof (Put_stores c key value Hret) as Hk.
  split_and!; [done| | |].
  - by rewrite (Get_hit _ key value Hk).
  - by rewrite (TryGet_hit _ key value Hk).
  - by apply (Cached_present _ key value).
Qed.

(** The other keys: untouched, or the one key reported to the callback. *)
Lemma Put_other_keys c key value key' :
  key' ≠ key →
  cache_items_map (Put key value c).1.2 !! key' = cache_items_map c !! key' ∨
  ∃ value',
    (Put key value c).2 = [(key', value')] ∧
    cache_items_map c !! key' = Some value' ∧
    cache_items_map (Put key value c).1.2 !! key' = None.
Proof.
  intros Hne.
  destruct (Put_cases c key value) as
    [old Hk ->| Hk ? ->|ek ev Hk ? ? Hek ->|ek Hk ? Hc Hek ->|e ? Hfull Hc ->];
    simpl; try (left; by rewrite lookup_insert_ne).
  - rewrite lookup_insert_ne by done.
    destruct (decide (key' = ek)) as [->|Hne'].
    + right. exists ev. by rewrite lookup_delete_eq.
    + left. by rewrite lookup_delete_ne.
  - by left.
Qed.

Lemma Put_size_exact c key value :
  cache_exact c →
  size (cache_items_map (Put key value c).1.2) =
    match cache_items_map c !! key with
    | Some _ => size (cache_items_map c)
    | None => S (size (cache_items_map c)) `min` max_cache_size c
    end.
Proof.
  intros He. pose proof He as (Hok & Hpos & Heq & Hsz).
  destruct (Put_cases c key value) as
    [old Hk ->| Hk ? ->|ek ev Hk ? ? Hek ->|ek Hk ? Hc Hek ->|e Hk Hfull Hc ->];
    proj_simpl; rewrite Hk.
  - by rewrite map_size_insert_Some.
  - rewrite map_size_insert_None by done. lia.
  - rewrite (size_evict_insert _ _ _ _ ev) by done. lia.
  - apply candidate_tracked in Hc; [|done].
    rewrite Heq in Hc. apply elem_of_dom in Hc as [? ?]. congruence.
  - destruct (candidate_exists c (exact_sound c He) Hfull). congruence.
Qed.

Lemma Put_full_exact c key value :
  cache_exact c →
  cache_items_map c !! key = None →
  size (cache_items_map c) = max_cache_size c →
  ∃ evict_key evicted,
    ReplacementCandidate (cache_policy c) = inr evict_key ∧
    cache_items_map c !! evict_key = Some evicted ∧
    Put key value c =
      (inr tt,
       mk_cache (<[key := value]> (delete evict_key (cache_items_map c)))
         (Insert key (Erase evict_key (cache_policy c))) (max_cache_size c),
       [(evict_key, evicted)]).
Proof.
  intros He Hk Hfull. pose proof He as (Hok & Hpos & Heq & Hsz).
  destruct (candidate_exists c (exact_sound c He)) as [ek Hc]; [lia|].
  pose proof (candidate_tracked _ _ Hok Hc) as Hin.
  rewrite Heq in Hin. apply elem_of_dom in Hin as [ev Hev].
  exists ek, ev. split_and!; [done..|].
  apply Put_evict; [done|lia|done..].
Qed.
End put_more.

(** X4.  In every state of a cache that was constructed with a policy
    tracking no keys, [Put(key, value)] returns normally and the value can
    be read back at once: [Get(key)] returns
    [value], [TryGet(key)] hits on the entry [(key, value)] and
    [Cached(key)] answers true.  For each of the four policies. *)
Theorem Put_then_Get `{Countable K} (V : Type) :
  every_policy (λ P (_ : ICachePolicy K P) (_ : Tracking K P),
    ∀ (c : fixed_sized_cache K V P) (key : K) (value : V),
      fresh_reachable c →
      (Put key value c).1.1 = inr tt ∧
      (Get key (Put key value c).1.2).1.1 = inr value ∧
      (TryGet key (Put key value c).1.2).1.1 = inr (Some (key, value), true) ∧
      Cached key (Put key value c).1.2 =
        (inr true, (Put key value c).1.2, [])).
Proof.
  unfold every_policy. refine (conj _ (conj _ (conj _ _)));
    intros c key value Hr; by apply Put_then_lookups, fresh_reachable_sound.
Qed.

Lemma Put_then_Get_witness :
  fresh_reachable (state_after [OpPut 1 10; OpPut 2 20]
               (mk_cache ∅ new_policy 2
                : fixed_sized_cache nat nat (NoCachePolicy.t nat))) ∧
  (Get 3 (Put 3 30 (state_after [OpPut 1 10; OpPut 2 20]
               (mk_cache ∅ new_policy 2
                : fixed_sized_cache nat nat (NoCachePolicy.t nat)))).1.2).1.1
    = inr 30.
Proof.
  assert (fresh_reachable (state_after [OpPut 1 10; OpPut 2 20]
               (mk_cache ∅ new_policy 2
                : fixed_sized_cache nat nat (NoCachePolicy.t nat)))) as Hr.
  { exists 2, [], (mk_cache ∅ new_policy 2), [OpPut 1 10; OpPut 2 20].
    split; [reflexivity|]. split; reflexivity. }
  split; [exact Hr|].
  exact (proj1 (proj2 (proj1 (Put_then_Get (K := nat) nat) _ 3 30 Hr))).
Defined.

(** X5.  [Put(key, value)] does not disturb the other keys: each of them
    keeps its entry (or its absence), except the one key whose entry was
    handed to the callback, which had an entry and has none afterwards. *)
Theorem Put_keeps_other_keys `{Countable K} (V : Type) :
  every_policy (λ P (_ : ICachePolicy K P) (_ : Tracking K P),
    ∀ (c : fixed_sized_cache K V P) (key key' : K) (value : V),
      key' ≠ key →
      cache_items_map (Put key value c).1.2 !! key' =
        cache_items_map c !! key' ∨
      ∃ value',
        (Put key value c).2 = [(key', value')] ∧
        cache_items_map c !! key' = Some value' ∧
        cache_items_map (Put key value c).1.2 !! key' = None).
Proof.
  unfold every_policy. refine (conj _ (conj _ (conj _ _)));
    intros; by apply Put_other_keys.
Qed.

Lemma Put_keeps_other_keys_witness :
  1 ≠ 3 ∧
  (cache_items_map
     (Put 3 30 (mk_cache (<[2 := 20]> (<[1 := 10]> ∅))
                  (Insert 2 (Insert 1 new_policy)) 2
                : fixed_sized_cache nat nat (FIFOCachePolicy.t nat))).1.2 !! 1
   = (<[2 := 20]> (<[1 := 10]> ∅) : gmap nat nat) !! 1 ∨
   ∃ value',
     (Put 3 30 (mk_cache (<[2 := 20]> (<[1 := 10]> ∅))
                  (Insert 2 (Insert 1 new_policy)) 2
                : fixed_sized_cache nat nat (FIFOCachePolicy.t nat))).2
       = [(1, value')] ∧
     (<[2 := 20]> (<[1 := 10]> ∅) : gmap nat nat) !! 1 = Some value' ∧
     cache_items_map
       (Put 3 30 (mk_cache (<[2 := 20]> (<[1 := 10]> ∅))
                    (Insert 2 (Insert 1 new_policy)) 2
                  : fixed_sized_cache nat nat (FIFOCachePolicy.t nat))).1.2
       !! 1 = None).
Proof.
  assert (1 ≠ 3) as Hne by lia.
  split; [exact Hne|].
  exact (proj1 (proj2 (Put_keeps_other_keys (K := nat) nat))
           (mk_cache (<[2 := 20]> (<[1 := 10]> ∅))
              (Insert 2 (Insert 1 new_policy)) 2) 3 1 30 Hne).
Defined.

(** X6.  In a cache that was constructed with a policy tracking no keys,
    [Put] of a key that has an entry keeps the number of entries, and [Put]
    of a new key makes it one more, but never more than the capacity.  On a
    full map the policy's candidate has an entry; that entry is evicted, with
    one callback call, and the new one takes its place.  For each of the
    four policies. *)
Theorem Put_size `{Countable K} (V : Type) :
  every_policy (λ P (_ : ICachePolicy K P) (_ : Tracking K P),
    ∀ (c : fixed_sized_cache K V P) (key : K) (value : V),
      fresh_reachable c →
      size (cache_items_map (Put key value c).1.2) =
        match cache_items_map c !! key with
        | Some _ => size (cache_items_map c)
        | None => S (size (cache_items_map c)) `min` max_cache_size c
        end ∧
      (cache_items_map c !! key = None →
       size (cache_items_map c) = max_cache_size c →
       ∃ evict_key evicted,
         ReplacementCandidate (cache_policy c) = inr evict_key ∧
         cache_items_map c !! evict_key = Some evicted ∧
         Put key value c =
           (inr tt,
            mk_cache (<[key := value]> (delete evict_key (cache_items_map c)))
              (Insert key (Erase evict_key (cache_policy c)))
              (max_cache_size c),
            [(evict_key, evicted)]))).
Proof.
  unfold every_policy. refine (conj _ (conj _ (conj _ _)));
    intros c key value Hr; apply fresh_reachable_exact in Hr;
    (split; [by apply Put_size_exact|by apply Put_full_exact]).
Qed.

Lemma Put_size_witness :
  fresh_reachable (state_after [OpPut 1 10; OpPut 2 20]
               (mk_cache ∅ new_policy 2
                : fixed_sized_cache nat nat (LIFOCachePolicy.t nat))) ∧
  size (cache_items_map
          (Put 3 30 (state_after [OpPut 1 10; OpPut 2 20]
               (mk_cache ∅ new_policy 2
                : fixed_sized_cache nat nat (LIFOCachePolicy.t nat)))).1.2)
    = 2.
Proof.
  assert (fresh_reachable (state_after [OpPut 1 10; OpPut 2 20]
               (mk_cache ∅ new_policy 2
                : fixed_sized_cache nat nat (LIFOCachePolicy.t nat)))) as Hr.
  { exists 2, [], (mk_cache ∅ new_policy 2), [OpPut 1 10; OpPut 2 20].
    split; [reflexivity|]. split; reflexivity. }
  split; [exact Hr|].
  exact (proj1 (proj1 (proj2 (proj2 (Put_size (K := nat) nat))) _ 3 30 Hr)).
Defined.

(** X7.  The three lookups agree.  [TryGet(key)] returns the entry of the
    key and found = true if the key has one, the end iterator and false if
    not; [Cached(key)] answers the same boolean; [Get(key)] returns the value
    of that entry or throws [std::range_error]; [Get] leaves the object in
    the state [TryGet] leaves it in, the map is the same as before, and
    neither calls the callback. *)
Theorem lookups_agree `{Countable K} {V P : Type} `{!ICachePolicy K P}
    (c : fixed_sized_cache K V P) (key : K) :
  (TryGet key c).1.1 =
    inr (pair key <$> cache_items_map c !! key,
         bool_decide (is_Some (cache_items_map c !! key))) ∧
  Cached key c =
    (inr (bool_decide (is_Some (cache_items_map c !! key))), c, []) ∧
  (Get key c).1.1 =
    match cache_items_map c !! key with
    | Some value => inr value
    | None => inl range_error
    end ∧
  (Get key c).1.2 = (TryGet key c).1.2 ∧
  cache_items_map (TryGet key c).1.2 = cache_items_map c ∧
  (Get key c).2 = [] ∧
  (TryGet key c).2 = [].
Proof.
  rewrite Cached_eq.
  destruct (cache_items_map c !! key) as [value|] eqn:Hk.
  - by rewrite (TryGet_hit c key value Hk), (Get_hit c key value Hk).
  - by rewrite (TryGet_miss c key Hk), (Get_miss c key Hk).
Qed.

Section lookups.
Context `{Countable K} {V P : Type}.
Context `{!ICachePolicy K P, !Tracking K P, !PolicyLaws K P}.
Implicit Types (c : fixed_sized_cache K V P) (key : K) (value : V).

Lemma lookup_step_frame (o : op K V) c :
  is_lookup o = true →
  cache_items_map (step o c).1.2 = cache_items_map c ∧
  max_cache_size (step o c).1.2 = max_cache_size c ∧
  tracked (cache_policy (step o c).1.2) = tracked (cache_policy c) ∧
  (step o c).2 = [].
Proof.
  intros Hl. rewrite step_state, step_calls.
  destruct o as [key value|key|key|key| |key|]; try done; simpl.
  - destruct (cache_items_map c !! key) as [v|] eqn:Hk.
    + rewrite (TryGet_hit c key v Hk). simpl. by rewrite tracked_Touch.
    + by rewrite (TryGet_miss c key Hk).
  - destruct (cache_items_map c !! key) as [v|] eqn:Hk.
    + rewrite (Get_hit c key v Hk). simpl. by rewrite tracked_Touch.
    + by rewrite (Get_miss c key Hk).
Qed.

Lemma lookups_frame (ops : list (op K V)) c :
  forallb is_lookup ops = true →
  cache_items_map (state_after ops c) = cache_items_map c ∧
  max_cache_size (state_after ops c) = max_cache_size c ∧
  tracked (cache_policy (state_after ops c)) = tracked (cache_policy c) ∧
  calls_during ops c = [].
Proof.
  induction ops as [|o ops IH] using rev_ind; [done|].
  rewrite forallb_app. simpl. rewrite andb_true_r.
  intros [Hops Ho]%andb_prop.
  destruct (IH Hops) as (Hm & Hc & Ht & Hcalls).
  rewrite state_after_snoc, calls_during_snoc.
  destruct (lookup_step_frame o (state_after ops c) Ho)
    as (-> & -> & -> & ->).
  by rewrite Hcalls.
Qed.

(** Where [Touch] does nothing, a lookup does nothing. *)
Lemma lookups_identity (ops : list (op K V)) c :
  (∀ key (p : P), Touch key p = p) →
  forallb is_lookup ops = true →
  state_after ops c = c.
Proof.
  intros HTouch.
  induction ops as [|o ops IH] using rev_ind; [done|].
  rewrite forallb_app. simpl. rewrite andb_true_r.
  intros [Hops Ho]%andb_prop.
  rewrite state_after_snoc, (IH Hops), step_state.
  destruct o as [key value|key|key|key| |key|]; try done; simpl.
  - destruct (cache_items_map c !! key) as [v|] eqn:Hk.
    + rewrite (TryGet_hit c key v Hk). simpl. rewrite HTouch. by destruct c.
    + by rewrite (TryGet_miss c key Hk).
  - destruct (cache_items_map c !! key) as [v|] eqn:Hk.
    + rewrite (Get_hit c key v Hk). simpl. rewrite HTouch. by destruct c.
    + by rewrite (Get_miss c key Hk).
Qed.
End lookups.

(** X8.  A sequence of lookups ([TryGet], [Get], [Cached], [Size], hits or
    misses) changes neither the map nor the capacity nor the keys the policy
    tracks and makes no callback call, for each of the four policies; with
    [NoCachePolicy], [FIFOCachePolicy] and [LIFOCachePolicy], whose [Touch]
    is empty, it leaves the whole object as it was. *)
Theorem lookups_change_nothing `{Countable K} (V : Type) :
  every_policy (λ P (_ : ICachePolicy K P) (_ : Tracking K P),
    ∀ (c : fixed_sized_cache K V P) (ops : list (op K V)),
      forallb is_lookup ops = true →
      cache_items_map (state_after ops c) = cache_items_map c ∧
      max_cache_size (state_after ops c) = max_cache_size c ∧
      tracked (cache_policy (state_after ops c)) = tracked (cache_policy c) ∧
      calls_during ops c = []) ∧
  (∀ (c : fixed_sized_cache K V (NoCachePolicy.t K)) (ops : list (op K V)),
     forallb is_lookup ops = true → state_after ops c = c) ∧
  (∀ (c : fixed_sized_cache K V (FIFOCachePolicy.t K)) (ops : list (op K V)),
     forallb is_lookup ops = true → state_after ops c = c) ∧
  (∀ (c : fixed_sized_cache K V (LIFOCachePolicy.t K)) (ops : list (op K V)),
     forallb is_lookup ops = true → state_after ops c = c).
Proof.
  split.
  - unfold every_policy. refine (conj _ (conj _ (conj _ _)));
      intros c ops; apply lookups_frame.
  - refine (conj _ (conj _ _)); intros c ops; by apply lookups_identity.
Qed.

Lemma lookups_change_nothing_witness :
  forallb (is_lookup (K := nat) (V := nat))
    [OpTryGet 1; OpGet 2; OpGet 7; OpCached 1; OpSize] = true ∧
  cache_items_map
    (state_after [OpTryGet 1; OpGet 2; OpGet 7; OpCached 1; OpSize]
       (mk_cache (<[2 := 20]> (<[1 := 10]> ∅))
          (Insert 2 (Insert 1 new_policy)) 2
        : fixed_sized_cache nat nat (LRUCachePolicy.t nat)))
    = <[2 := 20]> (<[1 := 10]> ∅) ∧
  state_after [OpTryGet 1; OpGet 2; OpGet 7; OpCached 1; OpSize]
    (mk_cache (<[2 := 20]> (<[1 := 10]> ∅))
       (Insert 2 (Insert 1 new_policy)) 2
     : fixed_sized_cache nat nat (FIFOCachePolicy.t nat))
    = mk_cache (<[2 := 20]> (<[1 := 10]> ∅)) (Insert 2 (Insert 1 new_policy)) 2.
Proof.
  assert (forallb (is_lookup (K := nat) (V := nat))
            [OpTryGet 1; OpGet 2; OpGet 7; OpCached 1; OpSize] = true)
    as Hl by reflexivity.
  split; [exact Hl|]. split.
  - exact (proj1 (proj2 (proj2 (proj2
      (proj1 (lookups_change_nothing (K := nat) nat))))
      (mk_cache (<[2 := 20]> (<[1 := 10]> ∅))
         (Insert 2 (Insert 1 new_policy)) 2) _ Hl)).
  - exact (proj1 (proj2 (proj2 (lookups_change_nothing (K := nat) nat)))
      (mk_cache (<[2 := 20]> (<[1 := 10]> ∅))
         (Insert 2 (Insert 1 new_policy)) 2) _ Hl).
Defined.

(** X9.  The range from [begin()] to [end()] shows the cache as the
    lookups see it: an entry is in the range exactly if [Get] of its key
    returns its value, a key is in the range exactly if [Cached] answers
    true, no key occurs twice and [Size] answers the length of the range. *)
Theorem iteration_shows_entries `{Countable K} {V P : Type}
    `{!ICachePolicy K P, !Tracking K P}
    (c : fixed_sized_cache K V P) (key : K) (value : V) :
  ((key, value) ∈ iteration c ↔ (Get key c).1.1 = inr value) ∧
  (key ∈ (iteration c).*1 ↔ Cached key c = (inr true, c, [])) ∧
  NoDup (iteration c).*1 ∧
  Size c = (inr (length (iteration c)), c, []).
Proof.
  unfold iteration. split_and!.
  - rewrite elem_of_map_to_list.
    destruct (cache_items_map c !! key) as [v|] eqn:Hk.
    + rewrite (Get_hit c key v Hk). simpl. split; congruence.
    + rewrite (Get_miss c key Hk). simpl. split; congruence.
  - rewrite list_elem_of_fmap. split.
    + intros [[k v] [-> Hin]]. apply elem_of_map_to_list in Hin.
      by apply (Cached_present _ _ v).
    + rewrite Cached_eq. intros [= Hb].
      apply bool_decide_eq_true in Hb as [v Hv].
      exists (key, v). split; [done|]. by apply elem_of_map_to_list.
  - apply NoDup_fst_map_to_list.
  - by rewrite Size_eq, length_map_to_list.
Qed.

Lemma iteration_shows_entries_witness :
  (1, 10) ∈ iteration
    (mk_cache (<[2 := 20]> (<[1 := 10]> ∅)) (Insert 2 (Insert 1 new_policy)) 2
     : fixed_sized_cache nat nat (LRUCachePolicy.t nat)) ∧
  (Get 1 (mk_cache (<[2 := 20]> (<[1 := 10]> ∅))
            (Insert 2 (Insert 1 new_policy)) 2
          : fixed_sized_cache nat nat (LRUCachePolicy.t nat))).1.1 = inr 10.
Proof.
  assert ((1, 10) ∈ iteration
    (mk_cache (<[2 := 20]> (<[1 := 10]> ∅)) (Insert 2 (Insert 1 new_policy)) 2
     : fixed_sized_cache nat nat (LRUCachePolicy.t nat))) as Hin.
  { apply elem_of_map_to_list. reflexivity. }
  split; [exact Hin|].
  exact (proj1 (proj1 (iteration_shows_entries
    (mk_cache (<[2 := 20]> (<[1 := 10]> ∅)) (Insert 2 (Insert 1 new_policy)) 2
     : fixed_sized_cache nat nat (LRUCachePolicy.t nat)) 1 10)) Hin).
Defined.

Section clear_more.
Context `{Countable K} {V P : Type}.
Context `{!ICachePolicy K P, !Tracking K P, !PolicyLaws K P}.
Implicit Types (c : fixed_sized_cache K V P) (key : K) (value : V).

(** A policy object that tracks no keys is as if default constructed. *)
Hypothesis empty_is_new :
  ∀ p : P, policy_ok p → tracked p = ∅ → p = new_policy.

Lemma Clear_resets c :
  cache_exact c →
  Clear c = (inr tt, mk_cache ∅ new_policy (max_cache_size c), []) ∧
  fixed_sized_cache_ctor (max_cache_size c) new_policy = inr (Clear c).1.2.
Proof.
  intros (Hok & Hpos & Heq & Hsz).
  assert (Clear c = (inr tt, mk_cache ∅ new_policy (max_cache_size c), []))
    as Hclear.
  { rewrite Clear_eq. do 3 f_equal. apply empty_is_new.
    - by apply Clear_policy_ok.
    - rewrite Clear_policy_tracked_map, Heq. set_solver. }
  split; [done|]. rewrite Hclear. simpl.
  unfold fixed_sized_cache_ctor. rewrite decide_False by lia. done.
Qed.
End clear_more.

Section empty_policies.
Context `{Countable K}.

Lemma NoCachePolicy_empty_is_new (p : NoCachePolicy.t K) :
  policy_ok p → tracked p = ∅ → p = new_policy.
Proof. destruct p as [s]. simpl. by intros _ ->. Qed.

Lemma FIFOCachePolicy_empty_is_new (p : FIFOCachePolicy.t K) :
  policy_ok p → tracked p = ∅ → p = new_policy.
Proof.
  destruct p as [q s]. simpl. intros [_ ->] Hs.
  apply list_to_set_empty_iff in Hs. by subst.
Qed.

Lemma LIFOCachePolicy_empty_is_new (p : LIFOCachePolicy.t K) :
  policy_ok p → tracked p = ∅ → p = new_policy.
Proof.
  destruct p as [q s]. simpl. intros [_ ->] Hs.
  apply list_to_set_empty_iff in Hs. by subst.
Qed.

Lemma LRUCachePolicy_empty_is_new (p : LRUCachePolicy.t K) :
  policy_ok p → tracked p = ∅ → p = new_policy.
Proof.
  destruct p as [q s]. simpl. intros [_ ->] Hs.
  apply list_to_set_empty_iff in Hs. by subst.
Qed.
End empty_policies.

(** X10.  In a cache that was constructed with a policy tracking no keys,
    [Clear] brings the object back to the state the constructor builds from
    the same capacity and a default constructed policy: empty map, policy
    without any record, same capacity.  For each of the four policies. *)
Theorem Clear_resets_to_constructed `{Countable K} (V : Type) :
  every_policy (λ P (_ : ICachePolicy K P) (_ : Tracking K P),
    ∀ c : fixed_sized_cache K V P,
      fresh_reachable c →
      Clear c = (inr tt, mk_cache ∅ new_policy (max_cache_size c), []) ∧
      fixed_sized_cache_ctor (max_cache_size c) new_policy
        = inr (Clear c).1.2).
Proof.
  unfold every_policy. refine (conj _ (conj _ (conj _ _)));
    intros c Hr; apply fresh_reachable_exact in Hr;
    eapply Clear_resets; eauto.
  - apply NoCachePolicy_empty_is_new.
  - apply FIFOCachePolicy_empty_is_new.
  - apply LIFOCachePolicy_empty_is_new.
  - apply LRUCachePolicy_empty_is_new.
Qed.

Lemma Clear_resets_to_constructed_witness :
  fresh_reachable (state_after [OpPut 1 10; OpPut 2 20; OpTryGet 1; OpPut 3 30]
               (mk_cache ∅ new_policy 2
                : fixed_sized_cache nat nat (LRUCachePolicy.t nat))) ∧
  Clear (state_after [OpPut 1 10; OpPut 2 20; OpTryGet 1; OpPut 3 30]
               (mk_cache ∅ new_policy 2
                : fixed_sized_cache nat nat (LRUCachePolicy.t nat)))
    = (inr tt, mk_cache ∅ new_policy 2, []).
Proof.
  assert (fresh_reachable
            (state_after [OpPut 1 10; OpPut 2 20; OpTryGet 1; OpPut 3 30]
               (mk_cache ∅ new_policy 2
                : fixed_sized_cache nat nat (LRUCachePolicy.t nat)))) as Hr.
  { exists 2, [], (mk_cache ∅ new_policy 2),
      [OpPut 1 10; OpPut 2 20; OpTryGet 1; OpPut 3 30].
    split; [reflexivity|]. split; reflexivity. }
  split; [exact Hr|].
  exact (proj1 (proj2 (proj2 (proj2
    (Clear_resets_to_constructed (K := nat) nat))) _ Hr)).
Defined.

(** X11.  Whatever the state, after [Clear] nothing is left to find:
    [Cached] answers false, [TryGet] misses, [Get] throws
    [std::range_error] and [Remove] returns false for every key, the range
    from [begin()] to [end()] is empty, and a second [Clear] changes
    nothing. *)
Theorem Clear_then_empty `{Countable K} {V P : Type}
    `{!ICachePolicy K P, !Tracking K P}
    (c : fixed_sized_cache K V P) (key : K) :
  Cached key (Clear c).1.2 = (inr false, (Clear c).1.2, []) ∧
  TryGet key (Clear c).1.2 = (inr (None, false), (Clear c).1.2, []) ∧
  Get key (Clear c).1.2 = (inl range_error, (Clear c).1.2, []) ∧
  Remove key (Clear c).1.2 = (inr false, (Clear c).1.2, []) ∧
  iteration (Clear c).1.2 = [] ∧
  Clear (Clear c).1.2 = (inr tt, (Clear c).1.2, []).
Proof.
  assert (cache_items_map (Clear c).1.2 = ∅) as Hm by done.
  revert Hm. generalize (Clear c).1.2. intros c' Hm.
  assert (cache_items_map c' !! key = None) as Hk
    by (by rewrite Hm, lookup_empty).
  split_and!.
  - by apply Cached_absent.
  - by apply TryGet_miss.
  - by apply Get_miss.
  - by apply Remove_absent.
  - unfold iteration. by rewrite Hm, map_to_list_empty.
  - rewrite Clear_eq, Hm, map_to_list_empty. simpl.
    destruct c'. simpl in Hm. by subst.
Qed.

Section capacity.
Context `{Countable K} {V P : Type} `{!ICachePolicy K P}.
Implicit Types (c : fixed_sized_cache K V P).

Lemma step_capacity (o : op K V) c :
  max_cache_size (step o c).1.2 = max_cache_size c.
Proof.
  rewrite step_state.
  destruct o as [key value|key|key|key| |key|]; simpl; try done.
  - by destruct (Put_cases c key value) as
      [? ? ->|? ? ->|? ? ? ? ? ? ->|? ? ? ? ? ->|? ? ? ? ->].
  - destruct (cache_items_map c !! key) as [v|] eqn:Hk.
    + by rewrite (TryGet_hit c key v Hk).
    + by rewrite (TryGet_miss c key Hk).
  - destruct (cache_items_map c !! key) as [v|] eqn:Hk.
    + by rewrite (Get_hit c key v Hk).
    + by rewrite (Get_miss c key Hk).
  - apply Remove_state.
Qed.

Lemma run_capacity (ops : list (op K V)) c :
  max_cache_size (state_after ops c) = max_cache_size c.
Proof.
  induction ops as [|o ops IH] using rev_ind; [done|].
  by rewrite state_after_snoc, step_capacity.
Qed.
End capacity.

(** X12.  The capacity given to the constructor is the capacity for good:
    no sequence of calls changes it. *)
Theorem capacity_never_changes `{Countable K} {V P : Type}
    `{!ICachePolicy K P} (max_size : nat) (policy : P)
    (c0 : fixed_sized_cache K V P) (ops : list (op K V)) :
  fixed_sized_cache_ctor max_size policy = inr c0 →
  max_cache_size (state_after ops c0) = max_size ∧ max_size ≠ 0.
Proof.
  unfold fixed_sized_cache_ctor. case_decide; [done|]. intros [= <-].
  by rewrite run_capacity.
Qed.

Lemma capacity_never_changes_witness :
  fixed_sized_cache_ctor 2 new_policy =
    inr (mk_cache ∅ new_policy 2
         : fixed_sized_cache nat nat (LIFOCachePolicy.t nat)) ∧
  max_cache_size
    (state_after [OpPut 1 10; OpPut 2 20; OpPut 3 30; OpRemove 1; OpClear]
       (mk_cache ∅ new_policy 2
        : fixed_sized_cache nat nat (LIFOCachePolicy.t nat))) = 2.
Proof.
  split; [reflexivity|].
  refine (proj1 (capacity_never_changes 2 new_policy
    (mk_cache ∅ new_policy 2)
    [OpPut 1 10; OpPut 2 20; OpPut 3 30; OpRemove 1; OpClear] _)).
  reflexivity.
Defined.

Section provenance.
Context `{Countable K} {V P : Type} `{!ICachePolicy K P}.
Implicit Types (c : fixed_sized_cache K V P) (key k : K) (value v : V).

Lemma lookups_agree_map c key :
  cache_items_map (Get key c).1.2 = cache_items_map c ∧
  max_cache_size (Get key c).1.2 = max_cache_size c ∧
  (Get key c).2 = [] ∧
  (TryGet key c).2 = [] ∧
  cache_items_map (TryGet key c).1.2 = cache_items_map c ∧
  max_cache_size (TryGet key c).1.2 = max_cache_size c.
Proof.
  destruct (cache_items_map c !! key) as [value|] eqn:Hk.
  - by rewrite (TryGet_hit c key value Hk), (Get_hit c key value Hk).
  - by rewrite (TryGet_miss c key Hk), (Get_miss c key Hk).
Qed.

Lemma step_calls_from_map (o : op K V) c k v :
  (k, v) ∈ (step o c).2 → cache_items_map c !! k = Some v.
Proof.
  rewrite step_calls.
  destruct o as [key value|key|key|key| |key|]; simpl;
    try (intros Hin; by apply elem_of_nil in Hin).
  - destruct (Put_cases c key value) as
      [old Hk ->| Hk ? ->|ek ev Hk ? ? Hek ->|ek Hk ? Hc Hek ->|e ? Hfull Hc ->];
      simpl; try (intros Hin; by apply elem_of_nil in Hin).
    intros Hin. apply list_elem_of_singleton in Hin. congruence.
  - destruct (cache_items_map c !! key) as [x|] eqn:Hk.
    + rewrite (TryGet_hit c key x Hk). simpl.
      intros Hin. by apply elem_of_nil in Hin.
    + rewrite (TryGet_miss c key Hk). simpl.
      intros Hin. by apply elem_of_nil in Hin.
  - destruct (cache_items_map c !! key) as [x|] eqn:Hk.
    + rewrite (Get_hit c key x Hk). simpl.
      intros Hin. by apply elem_of_nil in Hin.
    + rewrite (Get_miss c key Hk). simpl.
      intros Hin. by apply elem_of_nil in Hin.
  - destruct (cache_items_map c !! key) as [x|] eqn:Hk.
    + rewrite (Remove_present c key x Hk). simpl.
      intros Hin. apply list_elem_of_singleton in Hin. congruence.
    + rewrite (Remove_absent c key Hk). simpl.
      intros Hin. by apply elem_of_nil in Hin.
Qed.

Lemma step_entries_from (o : op K V) c k v :
  cache_items_map (step o c).1.2 !! k = Some v →
  cache_items_map c !! k = Some v ∨ o = OpPut k v.
Proof.
  rewrite step_state.
  destruct o as [key value|key|key|key| |key|]; simpl.
  - destruct (Put_cases c key value) as
      [old Hk ->| Hk ? ->|ek ev Hk ? ? Hek ->|ek Hk ? Hc Hek ->|e ? Hfull Hc ->];
      simpl; [| | | |by left];
      rewrite lookup_insert; case_decide; subst;
      try (intros [= ->]; by right); try (by left).
    rewrite lookup_delete. case_decide; [done|by left].
  - destruct (lookups_agree_map c key) as (_ & _ & _ & _ & -> & _). by left.
  - destruct (lookups_agree_map c key) as (-> & _). by left.
  - by left.
  - by left.
  - rewrite (proj1 (Remove_state c key)), lookup_delete.
    case_decide; [done|by left].
  - by rewrite lookup_empty.
Qed.

Lemma run_provenance (ops : list (op K V)) c k v :
  ((k, v) ∈ calls_during ops c →
   cache_items_map c !! k = Some v ∨ OpPut k v ∈ ops) ∧
  (cache_items_map (state_after ops c) !! k = Some v →
   cache_items_map c !! k = Some v ∨ OpPut k v ∈ ops).
Proof.
  induction ops as [|o ops [IHcalls IHmap]] using rev_ind.
  - split; [|by left]. intros Hin. by apply elem_of_nil in Hin.
  - assert (cache_items_map (state_after ops c) !! k = Some v →
            cache_items_map c !! k = Some v ∨ OpPut k v ∈ ops ++ [o]) as Hold.
    { intros Hm. destruct (IHmap Hm) as [?|?]; [by left|right].
      apply elem_of_app. by left. }
    split.
    + rewrite calls_during_snoc, elem_of_app. intros [Hin|Hin].
      * destruct (IHcalls Hin) as [?|?]; [by left|right].
        apply elem_of_app. by left.
      * by apply Hold, (step_calls_from_map o).
    + rewrite state_after_snoc. intros Hm.
      destruct (step_entries_from _ _ _ _ Hm) as [Hm'| ->]; [by apply Hold|].
      right. apply elem_of_app. right. by apply list_elem_of_singleton.
Qed.
End provenance.

(** X13.  Nothing is made up.  After any sequence of calls on a newly
    constructed cache, every entry of the map and every pair handed to the
    callback is the key and the value of a [Put] of the sequence. *)
Theorem entries_and_callbacks_come_from_Put `{Countable K} {V P : Type}
    `{!ICachePolicy K P} (max_size : nat) (policy : P)
    (c0 : fixed_sized_cache K V P) (ops : list (op K V)) (key : K)
    (value : V) :
  fixed_sized_cache_ctor max_size policy = inr c0 →
  ((key, value) ∈ calls_during ops c0 → OpPut key value ∈ ops) ∧
  (cache_items_map (state_after ops c0) !! key = Some value →
   OpPut key value ∈ ops).
Proof.
  unfold fixed_sized_cache_ctor. case_decide; [done|]. intros [= <-].
  destruct (run_provenance ops
    (mk_cache ∅ policy max_size : fixed_sized_cache K V P) key value)
    as [Hcalls Hmap].
  split; intros Hin.
  - destruct (Hcalls Hin) as [Hm|?]; [|done].
    simpl in Hm. by rewrite lookup_empty in Hm.
  - destruct (Hmap Hin) as [Hm|?]; [|done].
    simpl in Hm. by rewrite lookup_empty in Hm.
Qed.

Lemma entries_and_callbacks_come_from_Put_witness :
  (fixed_sized_cache_ctor 1 new_policy =
     inr (mk_cache ∅ new_policy 1
          : fixed_sized_cache nat nat (FIFOCachePolicy.t nat)) ∧
   (1, 10) ∈ calls_during [OpPut 1 10; OpPut 2 20]
               (mk_cache ∅ new_policy 1
                : fixed_sized_cache nat nat (FIFOCachePolicy.t nat))) ∧
  OpPut 1 10 ∈ [OpPut 1 10; OpPut 2 20].
Proof.
  assert ((1, 10) ∈ calls_during [OpPut 1 10; OpPut 2 20]
               (mk_cache ∅ new_policy 1
                : fixed_sized_cache nat nat (FIFOCachePolicy.t nat))) as Hin.
  { apply list_elem_of_singleton. reflexivity. }
  split; [split; [reflexivity|exact Hin]|].
  exact (proj1 (entries_and_callbacks_come_from_Put 1 new_policy
    (mk_cache ∅ new_policy 1) [OpPut 1 10; OpPut 2 20] 1 10 eq_refl) Hin).
Defined.

(** X14.  With the LRU policy a successful lookup protects the key: in
    every state of a cache that was constructed with a policy tracking no
    keys, after a [TryGet] or a [Get] that finds [key], the replacement
    candidate is another key whenever another key has an entry. *)
Theorem LRU_lookup_protects `{Countable K} {V : Type}
    (c : fixed_sized_cache K V (LRUCachePolicy.t K)) (key other : K)
    (value : V) :
  fresh_reachable c →
  cache_items_map c !! key = Some value →
  other ≠ key → is_Some (cache_items_map c !! other) →
  (∃ candidate,
     ReplacementCandidate (cache_policy (TryGet key c).1.2) = inr candidate ∧
     candidate ≠ key) ∧
  (∃ candidate,
     ReplacementCandidate (cache_policy (Get key c).1.2) = inr candidate ∧
     candidate ≠ key).
Proof.
  intros Hr Hk Hne Hother.
  apply fresh_reachable_sound in Hr as (Hok & _ & Hsub).
  rewrite (TryGet_hit c key value Hk), (Get_hit c key value Hk). simpl.
  assert (∃ candidate,
    ReplacementCandidate (Touch key (cache_policy c)) = inr candidate ∧
    candidate ≠ key) as Hcand; [|done].
  apply (LRU_Touch_candidate _ key other); [done| | |done].
  - apply Hsub, elem_of_dom. by eexists.
  - by apply Hsub, elem_of_dom.
Qed.

Lemma LRU_lookup_protects_witness :
  (fresh_reachable (state_after [OpPut 1 10; OpPut 2 20]
                (mk_cache ∅ new_policy 2
                 : fixed_sized_cache nat nat (LRUCachePolicy.t nat))) ∧
   cache_items_map (state_after [OpPut 1 10; OpPut 2 20]
                      (mk_cache ∅ new_policy 2
                       : fixed_sized_cache nat nat (LRUCachePolicy.t nat)))
     !! 1 = Some 10 ∧
   2 ≠ 1 ∧
   is_Some (cache_items_map (state_after [OpPut 1 10; OpPut 2 20]
                      (mk_cache ∅ new_policy 2
                       : fixed_sized_cache nat nat (LRUCachePolicy.t nat)))
     !! 2)) ∧
  ∃ candidate,
    ReplacementCandidate
      (cache_policy (TryGet 1 (state_after [OpPut 1 10; OpPut 2 20]
                      (mk_cache ∅ new_policy 2
                       : fixed_sized_cache nat nat (LRUCachePolicy.t nat)))
                   ).1.2) = inr candidate ∧
    candidate ≠ 1.
Proof.
  assert (fresh_reachable (state_after [OpPut 1 10; OpPut 2 20]
               (mk_cache ∅ new_policy 2
                : fixed_sized_cache nat nat (LRUCachePolicy.t nat)))) as Hr.
  { exists 2, [], (mk_cache ∅ new_policy 2), [OpPut 1 10; OpPut 2 20].
    split; [reflexivity|]. split; reflexivity. }
  assert (2 ≠ 1) as Hne by lia.
  assert (is_Some (cache_items_map (state_after [OpPut 1 10; OpPut 2 20]
                      (mk_cache ∅ new_policy 2
                       : fixed_sized_cache nat nat (LRUCachePolicy.t nat)))
     !! 2)) as Hs by (exists 20; reflexivity).
  split; [split_and!; [exact Hr|reflexivity|exact Hne|exact Hs]|].
  exact (proj1 (LRU_lookup_protects _ 1 2 10 Hr eq_refl Hne Hs)).
Defined.

(** * Further properties of the policies *)

Section policy_algebra.
Context `{Countable K}.
Implicit Types (key : K).

Lemma iter_idempotent {A} (f : A → A) (x : A) (n : nat) :
  f (f x) = f x → Nat.iter (S n) f x = f x.
Proof.
  intros Hf. induction n as [|n IH]; [done|].
  change (Nat.iter (S (S n)) f x) with (f (Nat.iter (S n) f x)).
  by rewrite IH.
Qed.

Lemma NoCachePolicy_Insert_twice (p : NoCachePolicy.t K) key :
  Insert key (Insert key p) = Insert key p.
Proof.
  destruct p as [s]. simpl. unfold NoCachePolicy.Insert. simpl.
  f_equal. set_solver.
Qed.

Lemma FIFOCachePolicy_Insert_twice (p : FIFOCachePolicy.t K) key :
  Insert key (Insert key p) = Insert key p.
Proof.
  destruct p as [q s]. simpl. unfold FIFOCachePolicy.Insert. simpl.
  destruct (decide (key ∈ s)) as [Hin|Hin]; simpl.
  - by rewrite decide_True.
  - rewrite decide_True; [done|set_solver].
Qed.

Lemma LIFOCachePolicy_Insert_twice (p : LIFOCachePolicy.t K) key :
  Insert key (Insert key p) = Insert key p.
Proof.
  destruct p as [q s]. simpl. unfold LIFOCachePolicy.Insert. simpl.
  destruct (decide (key ∈ s)) as [Hin|Hin]; simpl.
  - by rewrite decide_True.
  - rewrite decide_True; [done|set_solver].
Qed.

Lemma LRUCachePolicy_Insert_twice (p : LRUCachePolicy.t K) key :
  Insert key (Insert key p) = Insert key p.
Proof.
  destruct p as [q s]. simpl. unfold LRUCachePolicy.Insert. simpl.
  destruct (decide (key ∈ s)) as [Hin|Hin]; simpl.
  - by rewrite decide_True.
  - rewrite decide_True; [done|set_solver].
Qed.

Lemma FIFOCachePolicy_Insert_Erase (p : FIFOCachePolicy.t K) key :
  key ∉ tracked p → Erase key (Insert key p) = p.
Proof.
  destruct p as [q s]. simpl. intros Hk.
  unfold FIFOCachePolicy.Erase, FIFOCachePolicy.Insert. simpl.
  destruct (decide (key ∈ s)) as [?|_]; [done|]. simpl.
  rewrite decide_True by set_solver. simpl.
  rewrite decide_True by done. f_equal. set_solver.
Qed.

Lemma LIFOCachePolicy_Insert_Erase (p : LIFOCachePolicy.t K) key :
  key ∉ tracked p → Erase key (Insert key p) = p.
Proof.
  destruct p as [q s]. simpl. intros Hk.
  unfold LIFOCachePolicy.Erase, LIFOCachePolicy.Insert. simpl.
  destruct (decide (key ∈ s)) as [?|_]; [done|]. simpl.
  rewrite decide_True by set_solver. simpl.
  rewrite decide_True by done. f_equal. set_solver.
Qed.

Lemma LRUCachePolicy_Insert_Erase (p : LRUCachePolicy.t K) key :
  key ∉ tracked p → Erase key (Insert key p) = p.
Proof.
  destruct p as [q s]. simpl. intros Hk.
  unfold LRUCachePolicy.Erase, LRUCachePolicy.Insert. simpl.
  destruct (decide (key ∈ s)) as [?|_]; [done|]. simpl.
  rewrite decide_True by set_solver. simpl.
  rewrite decide_True by done. f_equal. set_solver.
Qed.

Lemma NoCachePolicy_unknown (p : NoCachePolicy.t K) key :
  key ∉ tracked p → Erase key p = p ∧ Touch key p = p.
Proof.
  destruct p as [s]. simpl. intros Hk. split; [|done].
  unfold NoCachePolicy.Erase. simpl. f_equal. set_solver.
Qed.

Lemma FIFOCachePolicy_unknown (p : FIFOCachePolicy.t K) key :
  key ∉ tracked p → Erase key p = p ∧ Touch key p = p.
Proof.
  destruct p as [q s]. simpl. intros Hk. split; [|done].
  unfold FIFOCachePolicy.Erase. simpl. by rewrite decide_False.
Qed.

Lemma LIFOCachePolicy_unknown (p : LIFOCachePolicy.t K) key :
  key ∉ tracked p → Erase key p = p ∧ Touch key p = p.
Proof.
  destruct p as [q s]. simpl. intros Hk. split; [|done].
  unfold LIFOCachePolicy.Erase. simpl. by rewrite decide_False.
Qed.

Lemma LRUCachePolicy_unknown (p : LRUCachePolicy.t K) key :
  key ∉ tracked p → Erase key p = p ∧ Touch key p = p.
Proof.
  destruct p as [q s]. simpl. intros Hk.
  unfold LRUCachePolicy.Erase, LRUCachePolicy.Touch. simpl.
  by rewrite !decide_False.
Qed.
End policy_algebra.

Section redundant_inserts.
Context `{Countable K} {P : Type}.
Context `{!ICachePolicy K P, !Tracking K P, !PolicyLaws K P}.

Lemma Erase_after_inserts (pops : list (policy_op K)) (key : K) (n : nat) :
  (∀ p : P, Insert key (Insert key p) = Insert key p) →
  Nat.iter (S n) (Insert key) (policy_after (P := P) pops)
    = Insert key (policy_after pops) ∧
  key ∉ tracked
    (Erase key (Nat.iter (S n) (Insert key) (policy_after (P := P) pops))) ∧
  ReplacementCandidate
    (Erase key (Nat.iter (S n) (Insert key) (policy_after (P := P) pops)))
    ≠ inr key.
Proof.
  intros Htwice. rewrite iter_idempotent by apply Htwice.
  split; [done|].
  assert (key ∉ tracked (Erase key (Insert key (policy_after (P := P) pops))))
    as Hgone by (rewrite tracked_Erase; set_solver).
  split; [done|]. intros Hc. apply Hgone.
  apply candidate_tracked; [|done].
  apply Erase_ok, Insert_ok, policy_after_ok.
Qed.
End redundant_inserts.

(** X15.  Inserting a key into a policy any number of times is the same as
    inserting it once; after that, one [Erase] removes it for good: the
    policy does not track it and [ReplacementCandidate] does not name it.
    For each of the four policies and every policy object. *)
Theorem Insert_is_idempotent `{Countable K} :
  every_policy (λ P (_ : ICachePolicy K P) (_ : Tracking K P),
    ∀ (pops : list (policy_op K)) (key : K) (n : nat),
      Nat.iter (S n) (Insert key) (policy_after (P := P) pops)
        = Insert key (policy_after pops) ∧
      key ∉ tracked
        (Erase key
           (Nat.iter (S n) (Insert key) (policy_after (P := P) pops))) ∧
      ReplacementCandidate
        (Erase key
           (Nat.iter (S n) (Insert key) (policy_after (P := P) pops)))
        ≠ inr key).
Proof.
  unfold every_policy. refine (conj _ (conj _ (conj _ _)));
    intros pops key n; apply Erase_after_inserts; intros p.
  - apply NoCachePolicy_Insert_twice.
  - apply FIFOCachePolicy_Insert_twice.
  - apply LIFOCachePolicy_Insert_twice.
  - apply LRUCachePolicy_Insert_twice.
Qed.

(** X16.  Inserting a key the policy does not track and erasing it again
    leaves the policy tracking the keys it tracked before, in each of the
    four policies; in the FIFO, LIFO and LRU policies it gives back the
    policy object as it was, order of the list included. *)
Theorem Insert_then_Erase `{Countable K} (key : K) :
  every_policy (λ P (_ : ICachePolicy K P) (_ : Tracking K P),
    ∀ p : P,
      key ∉ tracked p → tracked (Erase key (Insert key p)) = tracked p) ∧
  (∀ p : FIFOCachePolicy.t K,
     key ∉ tracked p → Erase key (Insert key p) = p) ∧
  (∀ p : LIFOCachePolicy.t K,
     key ∉ tracked p → Erase key (Insert key p) = p) ∧
  (∀ p : LRUCachePolicy.t K,
     key ∉ tracked p → Erase key (Insert key p) = p).
Proof.
  split.
  - unfold every_policy. refine (conj _ (conj _ (conj _ _))); intros p Hk;
      rewrite tracked_Erase, tracked_Insert; set_solver.
  - refine (conj _ (conj _ _)); intros p.
    + apply FIFOCachePolicy_Insert_Erase.
    + apply LIFOCachePolicy_Insert_Erase.
    + apply LRUCachePolicy_Insert_Erase.
Qed.

Lemma Insert_then_Erase_witness :
  3 ∉ tracked (LRUCachePolicy.mk [2; 1] {[1; 2]} : LRUCachePolicy.t nat) ∧
  Erase 3 (Insert 3 (LRUCachePolicy.mk [2; 1] {[1; 2]}))
    = (LRUCachePolicy.mk [2; 1] {[1; 2]} : LRUCachePolicy.t nat).
Proof.
  assert (3 ∉ tracked (LRUCachePolicy.mk [2; 1] {[1; 2]}
                       : LRUCachePolicy.t nat)) as Hk.
  { apply (bool_decide_unpack _). by vm_compute. }
  split; [exact Hk|].
  exact (proj2 (proj2 (proj2 (Insert_then_Erase (K := nat) 3)))
           (LRUCachePolicy.mk [2; 1] {[1; 2]}) Hk).
Defined.

(** X17.  [Erase] and [Touch] of a key the policy does not track leave the
    policy object as it is.  For each of the four policies. *)
Theorem unknown_key_is_ignored `{Countable K} :
  every_policy (λ P (_ : ICachePolicy K P) (_ : Tracking K P),
    ∀ (p : P) (key : K),
      key ∉ tracked p → Erase key p = p ∧ Touch key p = p).
Proof.
  unfold every_policy. refine (conj _ (conj _ (conj _ _))); intros p key.
  - apply NoCachePolicy_unknown.
  - apply FIFOCachePolicy_unknown.
  - apply LIFOCachePolicy_unknown.
  - apply LRUCachePolicy_unknown.
Qed.

Lemma unknown_key_is_ignored_witness :
  3 ∉ tracked (LRUCachePolicy.mk [2; 1] {[1; 2]} : LRUCachePolicy.t nat) ∧
  Erase 3 (LRUCachePolicy.mk [2; 1] {[1; 2]})
    = (LRUCachePolicy.mk [2; 1] {[1; 2]} : LRUCachePolicy.t nat) ∧
  Touch 3 (LRUCachePolicy.mk [2; 1] {[1; 2]})
    = (LRUCachePolicy.mk [2; 1] {[1; 2]} : LRUCachePolicy.t nat).
Proof.
  assert (3 ∉ tracked (LRUCachePolicy.mk [2; 1] {[1; 2]}
                       : LRUCachePolicy.t nat)) as Hk.
  { apply (bool_decide_unpack _). by vm_compute. }
  split; [exact Hk|].
  exact (proj2 (proj2 (proj2 (unknown_key_is_ignored (K := nat))))
           (LRUCachePolicy.mk [2; 1] {[1; 2]}) 3 Hk).
Defined.

(** X18.  Whatever members are called on a default constructed FIFO, LIFO
    or LRU policy, its list and its index stay in step: no key has two
    nodes, the keys of the list are the keys of the index, and there are as
    many nodes as indexed keys. *)
Theorem list_and_index_agree `{Countable K} (pops : list (policy_op K)) :
  (NoDup (FIFOCachePolicy.fifo_queue (policy_after pops)) ∧
   FIFOCachePolicy.key_lookup (policy_after pops)
     = list_to_set (FIFOCachePolicy.fifo_queue (policy_after pops)) ∧
   length (FIFOCachePolicy.fifo_queue (policy_after pops))
     = size (FIFOCachePolicy.key_lookup (policy_after pops))) ∧
  (NoDup (LIFOCachePolicy.lifo_stack (policy_after pops)) ∧
   LIFOCachePolicy.key_lookup (policy_after pops)
     = list_to_set (LIFOCachePolicy.lifo_stack (policy_after pops)) ∧
   length (LIFOCachePolicy.lifo_stack (policy_after pops))
     = size (LIFOCachePolicy.key_lookup (policy_after pops))) ∧
  (NoDup (LRUCachePolicy.lru_queue (policy_after pops)) ∧
   LRUCachePolicy.key_finder (policy_after pops)
     = list_to_set (LRUCachePolicy.lru_queue (policy_after pops)) ∧
   length (LRUCachePolicy.lru_queue (policy_after pops))
     = size (LRUCachePolicy.key_finder (policy_after pops))).
Proof.
  refine (conj _ (conj _ _)).
  - destruct (policy_after_ok (P := FIFOCachePolicy.t K) pops) as [Hnd Hs].
    split_and!; [exact Hnd|exact Hs|].
    rewrite Hs. by rewrite size_list_to_set.
  - destruct (policy_after_ok (P := LIFOCachePolicy.t K) pops) as [Hnd Hs].
    split_and!; [exact Hnd|exact Hs|].
    rewrite Hs. by rewrite size_list_to_set.
  - destruct (policy_after_ok (P := LRUCachePolicy.t K) pops) as [Hnd Hs].
    split_and!; [exact Hnd|exact Hs|].
    rewrite Hs. by rewrite size_list_to_set.
Qed.

Section candidate_order.
Context `{Countable K}.
Implicit Types (key cand : K) (q : list K).

Lemma last_list_erase key cand q :
  last q = Some cand → key ≠ cand → last (list_erase key q) = Some cand.
Proof.
  intros Hlast Hne. induction q as [|x q IH]; [done|]. simpl.
  case_decide as Hx.
  - subst x. by apply last_cons_Some_ne in Hlast.
  - rewrite last_cons in Hlast. rewrite last_cons.
    destruct (last q) as [y|] eqn:Hq.
    + by rewrite IH.
    + apply last_None in Hq. by subst q.
Qed.

Lemma head_list_erase key cand q :
  head q = Some cand → key ≠ cand → head (list_erase key q) = Some cand.
Proof.
  destruct q as [|x q]; [done|]. simpl. intros [= ->] Hne.
  by rewrite decide_False.
Qed.

Lemma FIFO_candidate_Erase (p : FIFOCachePolicy.t K) key cand :
  ReplacementCandidate p = inr cand → key ≠ cand →
  ReplacementCandidate (Erase key p) = inr cand.
Proof.
  destruct p as [q s]. simpl.
  unfold FIFOCachePolicy.ReplacementCandidate, FIFOCachePolicy.Erase. simpl.
  destruct (last q) as [x|] eqn:Hq; [|done]. intros [= ->] Hne.
  case_decide; simpl; [|by rewrite Hq].
  by rewrite (last_list_erase key cand).
Qed.

Lemma LRU_candidate_Erase (p : LRUCachePolicy.t K) key cand :
  ReplacementCandidate p = inr cand → key ≠ cand →
  ReplacementCandidate (Erase key p) = inr cand.
Proof.
  destruct p as [q s]. simpl.
  unfold LRUCachePolicy.ReplacementCandidate, LRUCachePolicy.Erase. simpl.
  destruct (last q) as [x|] eqn:Hq; [|done]. intros [= ->] Hne.
  case_decide; simpl; [|by rewrite Hq].
  by rewrite (last_list_erase key cand).
Qed.

Lemma LRU_candidate_Touch (p : LRUCachePolicy.t K) key cand :
  ReplacementCandidate p = inr cand → key ≠ cand →
  ReplacementCandidate (Touch key p) = inr cand.
Proof.
  destruct p as [q s]. simpl.
  unfold LRUCachePolicy.ReplacementCandidate, LRUCachePolicy.Touch. simpl.
  destruct (last q) as [x|] eqn:Hq; [|done]. intros [= ->] Hne.
  case_decide; simpl; [|by rewrite Hq].
  unfold list_splice_front.
  by rewrite last_cons, (last_list_erase key cand).
Qed.

Lemma LIFO_candidate_Erase (p : LIFOCachePolicy.t K) key cand :
  ReplacementCandidate p = inr cand → key ≠ cand →
  ReplacementCandidate (Erase key p) = inr cand.
Proof.
  destruct p as [q s]. simpl.
  unfold LIFOCachePolicy.ReplacementCandidate, LIFOCachePolicy.Erase. simpl.
  destruct q as [|x q]; [done|]. intros [= ->] Hne.
  case_decide; simpl; [|done]. by rewrite decide_False.
Qed.

Lemma LIFO_Insert_fresh key q (s : gset K) :
  key ∉ s →
  Insert key (LIFOCachePolicy.mk q s) =
  LIFOCachePolicy.mk (key :: q) ({[key]} ∪ s).
Proof.
  intros Hk. simpl. unfold LIFOCachePolicy.Insert. simpl.
  by rewrite decide_False.
Qed.

Lemma FIFO_candidate_Insert (p : FIFOCachePolicy.t K) key :
  key ∉ tracked p →
  ReplacementCandidate (Insert key p) =
    match ReplacementCandidate p with
    | inr cand => inr cand
    | inl _ => inr key
    end.
Proof.
  destruct p as [q s]. intros Hk. rewrite FIFO_Insert_fresh by done. simpl.
  unfold FIFOCachePolicy.ReplacementCandidate. simpl. rewrite last_cons.
  by destruct (last q).
Qed.

Lemma LRU_candidate_Insert (p : LRUCachePolicy.t K) key :
  key ∉ tracked p →
  ReplacementCandidate (Insert key p) =
    match ReplacementCandidate p with
    | inr cand => inr cand
    | inl _ => inr key
    end.
Proof.
  destruct p as [q s]. intros Hk. rewrite LRU_Insert_fresh by done. simpl.
  unfold LRUCachePolicy.ReplacementCandidate. simpl. rewrite last_cons.
  by destruct (last q).
Qed.

Lemma LIFO_candidate_Insert (p : LIFOCachePolicy.t K) key :
  key ∉ tracked p → ReplacementCandidate (Insert key p) = inr key.
Proof.
  destruct p as [q s]. intros Hk. by rewrite LIFO_Insert_fresh.
Qed.
End candidate_order.

(** X19.  In the FIFO, LIFO and LRU policies the candidate stays the
    candidate when another key is erased, and in the LRU policy also when
    another key is touched. *)
Theorem candidate_survives_other_keys `{Countable K} (key cand : K) :
  key ≠ cand →
  (∀ p : FIFOCachePolicy.t K,
     ReplacementCandidate p = inr cand →
     ReplacementCandidate (Erase key p) = inr cand) ∧
  (∀ p : LIFOCachePolicy.t K,
     ReplacementCandidate p = inr cand →
     ReplacementCandidate (Erase key p) = inr cand) ∧
  (∀ p : LRUCachePolicy.t K,
     ReplacementCandidate p = inr cand →
     ReplacementCandidate (Erase key p) = inr cand ∧
     ReplacementCandidate (Touch key p) = inr cand).
Proof.
  intros Hne. split_and!; intros p Hc.
  - by apply FIFO_candidate_Erase.
  - by apply LIFO_candidate_Erase.
  - split; [by apply LRU_candidate_Erase|by apply LRU_candidate_Touch].
Qed.

Lemma candidate_survives_other_keys_witness :
  (2 ≠ 1 ∧
   ReplacementCandidate (LRUCachePolicy.mk [3; 2; 1] {[1; 2; 3]}
                         : LRUCachePolicy.t nat) = inr 1) ∧
  ReplacementCandidate
    (Erase 2 (LRUCachePolicy.mk [3; 2; 1] {[1; 2; 3]} : LRUCachePolicy.t nat))
    = inr 1 ∧
  ReplacementCandidate
    (Touch 2 (LRUCachePolicy.mk [3; 2; 1] {[1; 2; 3]} : LRUCachePolicy.t nat))
    = inr 1.
Proof.
  assert (2 ≠ 1) as Hne by lia.
  split; [split; [exact Hne|reflexivity]|].
  exact (proj2 (proj2 (candidate_survives_other_keys 2 1 Hne))
           (LRUCachePolicy.mk [3; 2; 1] {[1; 2; 3]}) eq_refl).
Defined.

(** X20.  Where a new key goes.  In the FIFO and LRU policies a key that
    was not tracked is inserted behind the others: the candidate stays, and
    only in an empty policy the new key is the candidate.  In the LIFO policy
    the new key is the candidate at once. *)
Theorem candidate_after_Insert `{Countable K} (key : K) :
  (∀ p : FIFOCachePolicy.t K,
     key ∉ tracked p →
     ReplacementCandidate (Insert key p) =
       match ReplacementCandidate p with
       | inr cand => inr cand
       | inl _ => inr key
       end) ∧
  (∀ p : LRUCachePolicy.t K,
     key ∉ tracked p →
     ReplacementCandidate (Insert key p) =
       match ReplacementCandidate p with
       | inr cand => inr cand
       | inl _ => inr key
       end) ∧
  (∀ p : LIFOCachePolicy.t K,
     key ∉ tracked p → ReplacementCandidate (Insert key p) = inr key).
Proof.
  split_and!; intros p Hk.
  - by apply FIFO_candidate_Insert.
  - by apply LRU_candidate_Insert.
  - by apply LIFO_candidate_Insert.
Qed.

Lemma candidate_after_Insert_witness :
  3 ∉ tracked (FIFOCachePolicy.mk [2; 1] {[1; 2]} : FIFOCachePolicy.t nat) ∧
  ReplacementCandidate
    (Insert 3 (FIFOCachePolicy.mk [2; 1] {[1; 2]} : FIFOCachePolicy.t nat))
    = inr 1 ∧
  3 ∉ tracked (LIFOCachePolicy.mk [2; 1] {[1; 2]} : LIFOCachePolicy.t nat) ∧
  ReplacementCandidate
    (Insert 3 (LIFOCachePolicy.mk [2; 1] {[1; 2]} : LIFOCachePolicy.t nat))
    = inr 3.
Proof.
  assert (3 ∉ tracked (FIFOCachePolicy.mk [2; 1] {[1; 2]}
                       : FIFOCachePolicy.t nat)) as Hf.
  { apply (bool_decide_unpack _). by vm_compute. }
  assert (3 ∉ tracked (LIFOCachePolicy.mk [2; 1] {[1; 2]}
                       : LIFOCachePolicy.t nat)) as Hl.
  { apply (bool_decide_unpack _). by vm_compute. }
  split; [exact Hf|]. split.
  - exact (proj1 (candidate_after_Insert 3)
             (FIFOCachePolicy.mk [2; 1] {[1; 2]}) Hf).
  - split; [exact Hl|].
    exact (proj2 (proj2 (candidate_after_Insert 3))
             (LIFOCachePolicy.mk [2; 1] {[1; 2]}) Hl).
Defined.

(** * Filling a cache *)

Section fill.
Context `{Countable K} {V P : Type}.
Context `{!ICachePolicy K P, !Tracking K P, !PolicyLaws K P}.
Implicit Types (c : fixed_sized_cache K V P) (l : list (K * V)).

(** The order list of the policy and the end the candidate is taken from. *)
Variable queue : P → list K.
Variable choose : list K → option K.

Hypothesis queue_new : queue new_policy = [].
Hypothesis queue_Insert :
  ∀ key p, key ∉ tracked p → queue (Insert key p) = key :: queue p.
Hypothesis candidate_choose :
  ∀ p, ReplacementCandidate p =
       match choose (queue p) with
       | Some key => inr key
       | None => inl runtime_error
       end.

Lemma state_after_cons (o : op K V) ops c :
  state_after (o :: ops) c = state_after ops (step o c).1.2.
Proof. unfold state_after. by rewrite run_cons. Qed.

Lemma calls_during_cons (o : op K V) ops c :
  calls_during (o :: ops) c =
  (step o c).2 ++ calls_during ops (step o c).1.2.
Proof. unfold calls_during. by rewrite run_cons. Qed.

Lemma Puts_fill l c :
  NoDup l.*1 →
  (∀ key, key ∈ l.*1 →
     key ∉ tracked (cache_policy c) ∧ cache_items_map c !! key = None) →
  size (cache_items_map c) + length l ≤ max_cache_size c →
  cache_items_map (state_after (Puts l) c)
    = list_to_map l ∪ cache_items_map c ∧
  queue (cache_policy (state_after (Puts l) c))
    = reverse l.*1 ++ queue (cache_policy c) ∧
  tracked (cache_policy (state_after (Puts l) c))
    = list_to_set l.*1 ∪ tracked (cache_policy c) ∧
  max_cache_size (state_after (Puts l) c) = max_cache_size c ∧
  calls_during (Puts l) c = [].
Proof.
  revert c. induction l as [|[k v] l IH]; intros c Hnd Hfresh Hsz.
  - simpl. split_and!; try done.
    + by rewrite (left_id_L ∅ (∪)).
    + set_solver.
  - simpl in Hnd. apply NoDup_cons in Hnd as [Hk Hnd].
    destruct (Hfresh k) as [Hkt Hkm]; [simpl; by left|].
    simpl in Hsz.
    change (Puts ((k, v) :: l)) with (OpPut k v :: Puts l).
    rewrite state_after_cons, calls_during_cons.
    rewrite (step_Put_insert c k v Hkm) by lia. proj_simpl.
    destruct (IH (mk_cache (<[k := v]> (cache_items_map c))
                    (Insert k (cache_policy c)) (max_cache_size c)))
      as (Hm & Hq & Ht & Hc & Hcalls); proj_simpl.
    { done. }
    { intros key Hin. destruct (Hfresh key) as [? ?]; [simpl; by right|].
      assert (key ≠ k) by (by intros ->).
      split; [|by rewrite lookup_insert_ne].
      rewrite tracked_Insert. set_solver. }
    { rewrite map_size_insert_None by done. lia. }
    rewrite Hm, Hq, Ht, Hc, Hcalls. proj_simpl. split_and!; try done.
    + simpl. rewrite <-insert_union_r, insert_union_l; [done|].
      by apply not_elem_of_list_to_map_1.
    + rewrite queue_Insert by done. simpl.
      by rewrite reverse_cons, <-app_assoc.
    + rewrite tracked_Insert. simpl. set_solver.
Qed.

(** An empty cache of capacity [length l], filled by [Puts l], then one
    more key. *)
Lemma Put_overflow l key value evict_key evicted :
  l ≠ [] → NoDup l.*1 → key ∉ l.*1 →
  choose (reverse l.*1) = Some evict_key →
  (evict_key, evicted) ∈ l →
  calls_during (Puts l) (mk_cache ∅ new_policy (length l)) = [] ∧
  Put key value (state_after (Puts l) (mk_cache ∅ new_policy (length l))) =
    (inr tt,
     mk_cache (<[key := value]> (delete evict_key (list_to_map l)))
       (Insert key (Erase evict_key
          (cache_policy
             (state_after (Puts l) (mk_cache ∅ new_policy (length l))))))
       (length l),
     [(evict_key, evicted)]).
Proof.
  intros Hne Hnd Hkey Hchoose Hin.
  destruct (Puts_fill l (mk_cache ∅ new_policy (length l)))
    as (Hm & Hq & Ht & Hc & Hcalls); proj_simpl.
  { done. }
  { intros k _. rewrite new_policy_tracked, lookup_empty. set_solver. }
  { rewrite map_size_empty. lia. }
  cbn [cache_items_map cache_policy max_cache_size] in Hm, Hq, Hc.
  rewrite (right_id_L ∅ (∪)) in Hm. rewrite queue_new, app_nil_r in Hq.
  split; [done|].
  rewrite (Put_evict _ key value evict_key evicted).
  - by rewrite Hm, Hc.
  - rewrite Hm. by apply not_elem_of_list_to_map_1.
  - rewrite Hm, Hc. rewrite map_size_list_to_map by done. done.
  - by rewrite candidate_choose, Hq, Hchoose.
  - rewrite Hm. by apply elem_of_list_to_map_1.
Qed.
End fill.

Section overflow.
Context `{Countable K} {V : Type}.
Implicit Types (l : list (K * V)) (key evict_key : K) (value evicted : V).

Lemma FIFO_overflow l key value evict_key evicted :
  l ≠ [] → NoDup l.*1 → key ∉ l.*1 →
  last (reverse l.*1) = Some evict_key →
  (evict_key, evicted) ∈ l →
  calls_during (Puts l)
    (mk_cache ∅ (new_policy (P := FIFOCachePolicy.t K)) (length l)) = [] ∧
  Put key value
    (state_after (Puts l)
       (mk_cache ∅ (new_policy (P := FIFOCachePolicy.t K)) (length l))) =
    (inr tt,
     mk_cache (<[key := value]> (delete evict_key (list_to_map l)))
       (Insert key (Erase evict_key
          (cache_policy
             (state_after (Puts l) (mk_cache ∅ new_policy (length l))))))
       (length l),
     [(evict_key, evicted)]).
Proof.
  apply (Put_overflow FIFOCachePolicy.fifo_queue last); [done| |done].
  intros k [q s] Hk. by rewrite FIFO_Insert_fresh.
Qed.

Lemma LRU_overflow l key value evict_key evicted :
  l ≠ [] → NoDup l.*1 → key ∉ l.*1 →
  last (reverse l.*1) = Some evict_key →
  (evict_key, evicted) ∈ l →
  calls_during (Puts l)
    (mk_cache ∅ (new_policy (P := LRUCachePolicy.t K)) (length l)) = [] ∧
  Put key value
    (state_after (Puts l)
       (mk_cache ∅ (new_policy (P := LRUCachePolicy.t K)) (length l))) =
    (inr tt,
     mk_cache (<[key := value]> (delete evict_key (list_to_map l)))
       (Insert key (Erase evict_key
          (cache_policy
             (state_after (Puts l) (mk_cache ∅ new_policy (length l))))))
       (length l),
     [(evict_key, evicted)]).
Proof.
  apply (Put_overflow LRUCachePolicy.lru_queue last); [done| |done].
  intros k [q s] Hk. by rewrite LRU_Insert_fresh.
Qed.

Lemma LIFO_overflow l key value evict_key evicted :
  l ≠ [] → NoDup l.*1 → key ∉ l.*1 →
  head (reverse l.*1) = Some evict_key →
  (evict_key, evicted) ∈ l →
  calls_during (Puts l)
    (mk_cache ∅ (new_policy (P := LIFOCachePolicy.t K)) (length l)) = [] ∧
  Put key value
    (state_after (Puts l)
       (mk_cache ∅ (new_policy (P := LIFOCachePolicy.t K)) (length l))) =
    (inr tt,
     mk_cache (<[key := value]> (delete evict_key (list_to_map l)))
       (Insert key (Erase evict_key
          (cache_policy
             (state_after (Puts l) (mk_cache ∅ new_policy (length l))))))
       (length l),
     [(evict_key, evicted)]).
Proof.
  apply (Put_overflow LIFOCachePolicy.lifo_stack head); [done| |].
  - intros k [q s] Hk. by rewrite LIFO_Insert_fresh.
  - intros [q s]. simpl. unfold LIFOCachePolicy.ReplacementCandidate.
    simpl. by destruct q.
Qed.
End overflow.

(** X21.  A cache of capacity n is constructed with a default policy and
    filled by [Put] with n entries of distinct keys; nothing is evicted.
    The [Put] of one more new key then evicts, with one callback call:
    with the FIFO policy and with the LRU policy the entry that was put
    first, with the LIFO policy the entry that was put last.  The new map is
    the old one without that entry and with the new one. *)
Theorem overflow_evicts_by_policy `{Countable K} {V : Type}
    (first : K * V) (l : list (K * V)) (key : K) (value : V) :
  NoDup (first :: l).*1 → key ∉ (first :: l).*1 →
  (calls_during (Puts (first :: l))
     (mk_cache ∅ (new_policy (P := FIFOCachePolicy.t K)) (S (length l))) = [] ∧
   (Put key value
      (state_after (Puts (first :: l))
         (mk_cache ∅ (new_policy (P := FIFOCachePolicy.t K))
            (S (length l))))).2 = [first] ∧
   cache_items_map
     (Put key value
        (state_after (Puts (first :: l))
           (mk_cache ∅ (new_policy (P := FIFOCachePolicy.t K))
              (S (length l))))).1.2
     = <[key := value]> (delete first.1 (list_to_map (first :: l)))) ∧
  (calls_during (Puts (first :: l))
     (mk_cache ∅ (new_policy (P := LRUCachePolicy.t K)) (S (length l))) = [] ∧
   (Put key value
      (state_after (Puts (first :: l))
         (mk_cache ∅ (new_policy (P := LRUCachePolicy.t K))
            (S (length l))))).2 = [first] ∧
   cache_items_map
     (Put key value
        (state_after (Puts (first :: l))
           (mk_cache ∅ (new_policy (P := LRUCachePolicy.t K))
              (S (length l))))).1.2
     = <[key := value]> (delete first.1 (list_to_map (first :: l)))) ∧
  (calls_during (Puts (first :: l))
     (mk_cache ∅ (new_policy (P := LIFOCachePolicy.t K)) (S (length l))) = [] ∧
   (Put key value
      (state_after (Puts (first :: l))
         (mk_cache ∅ (new_policy (P := LIFOCachePolicy.t K))
            (S (length l))))).2 = [default first (last (first :: l))] ∧
   cache_items_map
     (Put key value
        (state_after (Puts (first :: l))
           (mk_cache ∅ (new_policy (P := LIFOCachePolicy.t K))
              (S (length l))))).1.2
     = <[key := value]>
         (delete (default first (last (first :: l))).1
            (list_to_map (first :: l)))).
Proof.
  intros Hnd Hkey.
  assert (first :: l ≠ []) as Hne by done.
  assert (last (reverse (first :: l).*1) = Some first.1) as Hfirst.
  { by rewrite last_reverse. }
  assert (first ∈ first :: l) as Hin1 by (by left).
  destruct (last (first :: l)) as [lst|] eqn:Hlast;
    [|by apply last_None in Hlast].
  assert (head (reverse (first :: l).*1) = Some lst.1) as Hlst.
  { by rewrite head_reverse, fmap_last, Hlast. }
  assert (lst ∈ first :: l) as Hin2 by (by apply last_Some_elem_of).
  destruct first as [k1 v1], lst as [kn vn]. simpl default.
  change (S (length l)) with (length ((k1, v1) :: l)).
  destruct (FIFO_overflow _ key value k1 v1 Hne Hnd Hkey Hfirst Hin1)
    as [HF1 HF2].
  destruct (LRU_overflow _ key value k1 v1 Hne Hnd Hkey Hfirst Hin1)
    as [HR1 HR2].
  destruct (LIFO_overflow _ key value kn vn Hne Hnd Hkey Hlst Hin2)
    as [HL1 HL2].
  rewrite HF2, HR2, HL2. by split_and!.
Qed.

Lemma overflow_evicts_by_policy_witness :
  (NoDup ((1, 10) :: [(2, 20); (3, 30)]).*1 ∧
   4 ∉ ((1, 10) :: [(2, 20); (3, 30)]).*1) ∧
  (Put 4 40
     (state_after (Puts [(1, 10); (2, 20); (3, 30)])
        (mk_cache ∅ new_policy 3
         : fixed_sized_cache nat nat (FIFOCachePolicy.t nat)))).2
    = [(1, 10)] ∧
  (Put 4 40
     (state_after (Puts [(1, 10); (2, 20); (3, 30)])
        (mk_cache ∅ new_policy 3
         : fixed_sized_cache nat nat (LIFOCachePolicy.t nat)))).2
    = [(3, 30)].
Proof.
  assert (NoDup ((1, 10) :: [(2, 20); (3, 30)]).*1) as Hnd
    by (apply (bool_decide_unpack _); by vm_compute).
  assert (4 ∉ ((1, 10) :: [(2, 20); (3, 30)]).*1) as Hkey
    by (apply (bool_decide_unpack _); by vm_compute).
  split; [split; [exact Hnd|exact Hkey]|].
  pose proof (overflow_evicts_by_policy (V := nat) (1, 10)
                [(2, 20); (3, 30)] 4 40 Hnd Hkey)
    as ((_ & HF & _) & _ & (_ & HL & _)).
  split; [exact HF|exact HL].
Defined.

Lemma Insert_is_idempotent_witness :
  Nat.iter 3 (Insert 5)
    (policy_after [PInsert 1; PInsert 2] : LRUCachePolicy.t nat)
    = Insert 5 (policy_after [PInsert 1; PInsert 2]) ∧
  5 ∉ tracked
    (Erase 5 (Nat.iter 3 (Insert 5)
       (policy_after [PInsert 1; PInsert 2] : LRUCachePolicy.t nat))).
Proof.
  pose proof (proj2 (proj2 (proj2 (Insert_is_idempotent (K := nat))))
                [PInsert 1; PInsert 2] 5 2) as (H1 & H2 & _).
  split; [exact H1|exact H2].
Defined.
